(** * dynamodb-lock-client: the fail-open lock client and the held lock

    A shallow embedding of [index.ts].  The program is event driven: every
    method either returns at once or hands a command to the DynamoDB
    document client together with a completion callback, or arms a timer.
    Each method and each callback body is embedded as a handler, a function
    from the object's fields and the handler's inputs to the new fields and
    the list of effects the body performs, in program order.  The clock
    ([new Date()]), [crypto.randomUUID()] and the host identity are inputs of
    the handler that reads them.

    Numbers are the integers [Z]; [NaN] is kept apart where the source can
    produce it ([parseInt], [Math.max]).  Fractions are outside the model.
    The code's numbers are doubles: its sums, differences and products are
    those of [Z] as long as operands and result are safe integers
    ([isSafeInteger]), and it prints an integer in decimal digits below
    1e21.  The properties of the lease units and of the lease's round trip
    through the table carry that bound as a hypothesis; the lemmas they rest
    on are stated for the integers of the model. *)

From Stdlib Require Import ZArith Ascii String List Bool Lia.
From stdpp Require Import base option strings pretty gmap list.

Local Open Scope string_scope.
Local Open Scope Z_scope.

(** ** JavaScript values *)

(** The values a lock id component, a key or an item attribute can hold. *)
Inductive JsValue : Type :=
| JUndefined
| JNumber (n : Z)
| JNaN
| JString (s : string).

#[global] Instance JsValue_eq_dec : EqDecision JsValue.
Proof. solve_decision. Defined.

(** [if (v)] *)
Definition truthy (v : JsValue) : bool :=
  match v with
  | JUndefined => false
  | JNumber n => negb (n =? 0)
  | JNaN => false
  | JString s => negb (String.eqb s "")
  end.

(** [if (s)] for an optional string such as [config.sortKey]: the key when it
    is set and not the empty string. *)
Definition truthyString (o : option string) : option string :=
  match o with
  | Some s => if String.eqb s "" then None else Some s
  | None => None
  end.

(** [if (n)] for an optional number such as [config.heartbeatPeriodMs]. *)
Definition truthyNumber (o : option Z) : bool :=
  match o with
  | Some n => negb (n =? 0)
  | None => false
  end.

(** [o[k]]: a missing property reads as [undefined]. *)
Definition prop (o : gmap string JsValue) (k : string) : JsValue :=
  default JUndefined (o !! k).

(** *** [parseInt] with no radix argument *)

Definition isWhiteSpace (c : ascii) : bool :=
  let n := nat_of_ascii c in
  (Nat.eqb n 32 || Nat.eqb n 9 || Nat.eqb n 10 || Nat.eqb n 11
   || Nat.eqb n 12 || Nat.eqb n 13)%bool.

Fixpoint trimStart (s : string) : string :=
  match s with
  | String c r => if isWhiteSpace c then trimStart r else s
  | EmptyString => s
  end.

Definition digitValue (c : ascii) : option Z :=
  let n := Z.of_nat (nat_of_ascii c) in
  if (48 <=? n) && (n <=? 57) then Some (n - 48)
  else if (97 <=? n) && (n <=? 122) then Some (n - 97 + 10)
  else if (65 <=? n) && (n <=? 90) then Some (n - 65 + 10)
  else None.

(** The longest prefix of digits below the radix, read as a number; [acc] is
    [None] until a digit has been seen. *)
Fixpoint parseDigits (radix : Z) (s : string) (acc : option Z) : option Z :=
  match s with
  | String c r =>
      match digitValue c with
      | Some d =>
          if d <? radix then parseDigits radix r (Some (radix * default 0 acc + d))
          else acc
      | None => acc
      end
  | EmptyString => acc
  end.

(** [None] is [NaN]. *)
Definition parseIntString (s : string) : option Z :=
  let s := trimStart s in
  let '(sign, s) :=
    match s with
    | String "-"%char r => (-1, r)
    | String "+"%char r => (1, r)
    | _ => (1, s)
    end in
  let '(radix, s) :=
    match s with
    | String "0"%char (String "x"%char r) => (16, r)
    | String "0"%char (String "X"%char r) => (16, r)
    | _ => (10, s)
    end in
  Z.mul sign <$> parseDigits radix s None.

(** [n.toString()] of an integer below 1e21 in magnitude, which the code
    prints in decimal digits; from 1e21 on it prints exponent notation, which
    this definition does not follow. *)
Definition toString (n : Z) : string := pretty n.

(** [parseInt(v)]: the argument is converted to a string first, a number by
    [toString]; ["undefined"] and ["NaN"] have no leading digit. *)
Definition parseInt (v : JsValue) : option Z :=
  match v with
  | JUndefined => None
  | JNumber n => parseIntString (toString n)
  | JNaN => None
  | JString s => parseIntString s
  end.

(** [Number.MAX_SAFE_INTEGER] and [Number.isSafeInteger] on an integer: the
    range in which every integer is a double, so that a sum, difference or
    product of doubles whose exact result lies in it is computed exactly. *)
Definition MAX_SAFE_INTEGER : Z := 2 ^ 53 - 1.

Definition isSafeInteger (n : Z) : bool :=
  (- MAX_SAFE_INTEGER <=? n) && (n <=? MAX_SAFE_INTEGER).

(** [x || d] for a number [x] that may be [NaN]. *)
Definition orDefault (x : option Z) (d : Z) : Z :=
  match x with
  | Some n => if n =? 0 then d else n
  | None => d
  end.

(** *** Errors *)

(** An error object.  [Error] is [new Error(message)], with a [code]
    property when one has been set on it, as Node sets it on system errors;
    [FailOpenError] is the client's own class.  [ServiceException] is an
    exception of the imported document client ([@aws-sdk/lib-dynamodb] 3.x in
    package.json), whose classes tell the failure by their [name], such as
    ["ConditionalCheckFailedException"], and have no [code] property. *)
Inductive JsError : Type :=
| Error (message : string) (code : option string)
| FailOpenError (message : string) (code : string) (originalError : JsError)
| ServiceException (name : string) (message : string).

(** [error.code] *)
Definition errorCode (e : JsError) : option string :=
  match e with
  | Error _ c => c
  | FailOpenError _ c _ => Some c
  | ServiceException _ _ => None
  end.

Definition errorMessage (e : JsError) : string :=
  match e with
  | Error m _ => m
  | FailOpenError m _ _ => m
  | ServiceException _ m => m
  end.

(** [error.name]: ["Error"] for [Error] and for [FailOpenError], which does
    not set it. *)
Definition errorName (e : JsError) : string :=
  match e with
  | Error _ _ | FailOpenError _ _ _ => "Error"
  | ServiceException n _ => n
  end.

(** [`${e}`]: [Error.prototype.toString]. *)
Definition errorToString (e : JsError) : string :=
  if String.eqb (errorName e) "" then errorMessage e
  else if String.eqb (errorMessage e) "" then errorName e
  else errorName e +:+ ": " +:+ errorMessage e.

(** [error.code === "ConditionalCheckFailedException"] *)
Definition isConditionalCheckFailed (e : JsError) : bool :=
  match errorCode e with
  | Some c => String.eqb c "ConditionalCheckFailedException"
  | None => false
  end.

(** ** Condition expressions *)

Definition buildAttributeExistsExpression (sortKey : option string) : string :=
  let expr := "attribute_exists(#partitionKey)" in
  match truthyString sortKey with
  | Some _ => "(" +:+ (expr +:+ " and attribute_exists(#sortKey)") +:+ ")"
  | None => expr
  end.

Definition buildAttributeNotExistsExpression (sortKey : option string) : string :=
  let expr := "attribute_not_exists(#partitionKey)" in
  match truthyString sortKey with
  | Some _ => "(" +:+ (expr +:+ " and attribute_not_exists(#sortKey)") +:+ ")"
  | None => expr
  end.

Definition buildExpressionAttributeNames (partitionKey : string)
    (sortKey : option string) : gmap string string :=
  let names : gmap string string := {[ "#partitionKey" := partitionKey ]} in
  match truthyString sortKey with
  | Some sk => <[ "#sortKey" := sk ]> names
  | None => names
  end.

(** ** Lease units *)

(** [None] is the [throw new Error(`Invalid lease unit: ${unit}`)] of the
    default branch. *)
Definition getMsForLease (time : Z) (unit : string) : option Z :=
  if String.eqb unit "milliseconds" then Some time
  else if String.eqb unit "seconds" then Some (time * 1000)
  else if String.eqb unit "minutes" then Some (time * 1000 * 60)
  else if String.eqb unit "hours" then Some (time * 1000 * 60 * 60)
  else if String.eqb unit "days" then Some (time * 1000 * 60 * 60 * 24)
  else None.

(** [type LeaseUnit] *)
Inductive LeaseUnit : Type :=
| milliseconds | seconds | minutes | hours | days.

Definition unitName (u : LeaseUnit) : string :=
  match u with
  | milliseconds => "milliseconds"
  | seconds => "seconds"
  | minutes => "minutes"
  | hours => "hours"
  | days => "days"
  end.

(** [getMsForLease] at a unit of the declared type, where the default branch
    is never reached (lemma [getMsForLease_unitName]). *)
Definition leaseMs (time : Z) (u : LeaseUnit) : Z :=
  match u with
  | milliseconds => time
  | seconds => time * 1000
  | minutes => time * 1000 * 60
  | hours => time * 1000 * 60 * 60
  | days => time * 1000 * 60 * 60 * 24
  end.

(** ** The client's configuration and the commands it sends *)

(** [interface FailOpenConfig], without the storage handle [dynamodb], which
    is the environment of the handlers.  An unset [trustLocalTime] is read
    as [false]: the source only ever tests it. *)
Record FailOpenConfig : Type := {
  ownerName : string;
  lockTable : string;
  partitionKey : string;
  sortKey : option string;
  heartbeatPeriodMs : option Z;
  leaseDuration : Z;
  leaseUnit : LeaseUnit;
  trustLocalTime : bool;
  retryCount : option Z
}.

(** [interface LockData extends FailOpenConfig] *)
Record LockData : Type := {
  data_config : FailOpenConfig;
  data_partitionID : JsValue;
  data_recordVersionNumber : string;
  data_sortID : JsValue
}.

(** [interface AcquireLockData]; its [heartbeatPeriodMs] is never set. *)
Record AcquireLockData : Type := {
  bag_partitionID : JsValue;
  bag_recordVersionNumber : string;
  bag_sortID : JsValue;
  bag_ownerName : string;
  bag_retryCount : Z
}.

Record GetCommandInput : Type := {
  get_TableName : string;
  get_Key : gmap string JsValue;
  get_ConsistentRead : bool
}.

Record PutCommandInput : Type := {
  put_TableName : string;
  put_Item : gmap string JsValue;
  put_ConditionExpression : string;
  put_ExpressionAttributeNames : gmap string string;
  put_ExpressionAttributeValues : option (gmap string JsValue)
}.

Record DeleteCommandInput : Type := {
  del_TableName : string;
  del_Key : gmap string JsValue;
  del_ConditionExpression : string;
  del_ExpressionAttributeNames : gmap string string;
  del_ExpressionAttributeValues : gmap string JsValue
}.

(** One reading of [new Date()]: [.getTime()] and [.toISOString()]. *)
Record Clock : Type := {
  getTime : Z;
  toISOString : string
}.

(** [os.userInfo().username] and [os.hostname()]. *)
Record Host : Type := {
  username : string;
  hostname : string
}.

(** [pkg.name] and [pkg.version], from package.json. *)
Definition pkg_name : string := "@spiffcommerce/dynamodb-lock-client".
Definition pkg_version : string := "1.0.0".

(** ** class FailOpen *)

Definition reservedFieldNames : list string :=
  ["leaseDuration"; "lockAcquiredTimeUnixMs"; "ownerName"; "recordVersionNumber"].

(** [Array.prototype.includes] on strings. *)
Definition includes (l : list string) (s : string) : bool :=
  existsb (String.eqb s) l.

Record FailOpen : Type := {
  fo_config : FailOpenConfig;
  fo_retryCount : Z
}.

(** The constructor: [inl] is the thrown [Error]. *)
Definition FailOpen_new (config : FailOpenConfig) : JsError + FailOpen :=
  if includes reservedFieldNames (partitionKey config) then
    inl (Error ("Cannot use reserved field name " +:+ partitionKey config
                +:+ " for partition key.") None)
  else
    match truthyString (sortKey config) with
    | Some sk =>
        if includes reservedFieldNames sk then
          inl (Error ("Cannot use reserved field name " +:+ sk
                      +:+ " for sort key.") None)
        else inr {| fo_config := config;
                    fo_retryCount := default 1 (retryCount config) |}
    | None => inr {| fo_config := config;
                     fo_retryCount := default 1 (retryCount config) |}
    end.

(** The id passed to [acquireLock]: a string or number, or an object with the
    key attributes as properties ([typeof id === "object"]). *)
Inductive LockId : Type :=
| IdScalar (v : JsValue)
| IdObject (o : gmap string JsValue).

(** What the client does to its environment.  [Callback None (Some data)] is
    [callback(undefined, new Lock(data))]; what the constructor of the lock
    does is [Lock_new]. *)
Inductive AcquireEffect : Type :=
| SendGet (params : GetCommandInput)
| SendPut (params : PutCommandInput)
| SetTimeout (timeout : option Z)
| Callback (error : option JsError) (lock : option LockData).

(** What an acquisition waits for after a handler has returned. *)
Inductive Pending : Type :=
| AwaitGet (dataBag : AcquireLockData)
| AwaitTimeout (dataBag : AcquireLockData) (lock : gmap string JsValue)
| AwaitPut (dataBag : AcquireLockData)
| Settled.

Definition setRetryCount (dataBag : AcquireLockData) (n : Z) : AcquireLockData :=
  {| bag_partitionID := bag_partitionID dataBag;
     bag_recordVersionNumber := bag_recordVersionNumber dataBag;
     bag_sortID := bag_sortID dataBag;
     bag_ownerName := bag_ownerName dataBag;
     bag_retryCount := n |}.

(** The [Key] of a read or delete: the partition key, then the sort key when
    one is configured. *)
Definition buildKey (partitionKey : string) (sortKey : option string)
    (partitionID sortID : JsValue) : gmap string JsValue :=
  let key : gmap string JsValue := {[ partitionKey := partitionID ]} in
  match truthyString sortKey with
  | Some sk => <[ sk := sortID ]> key
  | None => key
  end.

Definition checkForExistingLock_params (this : FailOpen)
    (dataBag : AcquireLockData) : GetCommandInput :=
  {| get_TableName := lockTable (fo_config this);
     get_Key := buildKey (partitionKey (fo_config this)) (sortKey (fo_config this))
                  (bag_partitionID dataBag) (bag_sortID dataBag);
     get_ConsistentRead := true |}.

Definition checkForExistingLock (this : FailOpen) (dataBag : AcquireLockData)
    : Pending * list AcquireEffect :=
  (AwaitGet dataBag, [SendGet (checkForExistingLock_params this dataBag)]).

(** The [timeout] computed from the record that was read; [None] is [NaN]. *)
Definition existingLockTimeout (this : FailOpen) (item : gmap string JsValue)
    (clock : Clock) : option Z :=
  let leaseDurationMs := orDefault (parseInt (prop item "leaseDuration")) 10000 in
  if trustLocalTime (fo_config this) then
    match parseInt (prop item "lockAcquiredTimeUnixMs") with
    | Some lockAcquiredTimeUnixMs =>
        let localTimeUnixMs := getTime clock in
        Some (Z.max 0 (leaseDurationMs - (localTimeUnixMs - lockAcquiredTimeUnixMs)))
    | None => None
    end
  else Some leaseDurationMs.

(** The object literal shared by the three writers, later properties
    overwriting earlier ones of the same name. *)
Definition baseItem (partitionKey : string) (partitionID : JsValue)
    (leaseDuration : Z) (leaseUnit : LeaseUnit) (ownerName recordVersionNumber : string)
    (clock : Clock) : gmap string JsValue :=
  <[ "createdAt" := JString (toISOString clock) ]>
  (<[ "recordVersionNumber" := JString recordVersionNumber ]>
  (<[ "ownerName" := JString ownerName ]>
  (<[ "leaseDuration" :=
        JString (toString (leaseMs (orDefault (Some leaseDuration) 10000) leaseUnit)) ]>
  ({[ partitionKey := partitionID ]})))).

(** [if (trustLocalTime) Item.lockAcquiredTimeUnixMs = new Date().getTime()] *)
Definition withAcquiredTime (trust : bool) (clock : Clock)
    (item : gmap string JsValue) : gmap string JsValue :=
  if trust then <[ "lockAcquiredTimeUnixMs" := JNumber (getTime clock) ]> item
  else item.

(** [if (dataBag.sortID) Item[this.config.sortKey!] = dataBag.sortID]; with no
    sort key configured the property name is ["undefined"]. *)
Definition withSortID (sortKey : option string) (sortID : JsValue)
    (item : gmap string JsValue) : gmap string JsValue :=
  if truthy sortID then <[ default "undefined" sortKey := sortID ]> item
  else item.

Definition tryAcquireLock (params : PutCommandInput) (dataBag : AcquireLockData)
    : Pending * list AcquireEffect :=
  (AwaitPut dataBag, [SendPut params]).

Definition acquireItem (this : FailOpen) (dataBag : AcquireLockData)
    (clock : Clock) : gmap string JsValue :=
  let config := fo_config this in
  withSortID (sortKey config) (bag_sortID dataBag)
    (withAcquiredTime (trustLocalTime config) clock
       (baseItem (partitionKey config) (bag_partitionID dataBag)
          (leaseDuration config) (leaseUnit config)
          (bag_ownerName dataBag) (bag_recordVersionNumber dataBag) clock)).

Definition acquireNewLock_params (this : FailOpen) (dataBag : AcquireLockData)
    (clock : Clock) : PutCommandInput :=
  let config := fo_config this in
  {| put_TableName := lockTable config;
     put_Item := acquireItem this dataBag clock;
     put_ConditionExpression := buildAttributeNotExistsExpression (sortKey config);
     put_ExpressionAttributeNames :=
       buildExpressionAttributeNames (partitionKey config) (sortKey config);
     put_ExpressionAttributeValues := None |}.

Definition acquireNewLock (this : FailOpen) (dataBag : AcquireLockData)
    (clock : Clock) : Pending * list AcquireEffect :=
  tryAcquireLock (acquireNewLock_params this dataBag clock) dataBag.

Definition acquireExistingLock_params (this : FailOpen) (dataBag : AcquireLockData)
    (lock : gmap string JsValue) (clock : Clock) : PutCommandInput :=
  let config := fo_config this in
  {| put_TableName := lockTable config;
     put_Item := acquireItem this dataBag clock;
     put_ConditionExpression :=
       buildAttributeNotExistsExpression (sortKey config)
       +:+ " or (recordVersionNumber = :recordVersionNumber)";
     put_ExpressionAttributeNames :=
       buildExpressionAttributeNames (partitionKey config) (sortKey config);
     put_ExpressionAttributeValues :=
       Some {[ ":recordVersionNumber" := prop lock "recordVersionNumber" ]} |}.

Definition acquireExistingLock (this : FailOpen) (dataBag : AcquireLockData)
    (lock : gmap string JsValue) (clock : Clock) : Pending * list AcquireEffect :=
  tryAcquireLock (acquireExistingLock_params this dataBag lock clock) dataBag.

(** The completion callback of the read in [checkForExistingLock]. *)
Definition checkForExistingLock_done (this : FailOpen) (dataBag : AcquireLockData)
    (error : option JsError) (item : option (gmap string JsValue)) (clock : Clock)
    : Pending * list AcquireEffect :=
  match error with
  | Some e => (Settled, [Callback (Some e) None])
  | None =>
      match item with
      | None => acquireNewLock this dataBag clock
      | Some lock =>
          (AwaitTimeout dataBag lock, [SetTimeout (existingLockTimeout this lock clock)])
      end
  end.

(** The [LockData] handed to [new Lock] on success. *)
Definition newLockData (this : FailOpen) (dataBag : AcquireLockData) : LockData :=
  let config := fo_config this in
  {| data_config :=
       {| ownerName := bag_ownerName dataBag;
          lockTable := lockTable config;
          partitionKey := partitionKey config;
          sortKey := sortKey config;
          heartbeatPeriodMs := heartbeatPeriodMs config;
          leaseDuration := orDefault (Some (leaseDuration config)) 10000;
          leaseUnit := leaseUnit config;
          trustLocalTime := trustLocalTime config;
          retryCount := None |};
     data_partitionID := bag_partitionID dataBag;
     data_recordVersionNumber := bag_recordVersionNumber dataBag;
     data_sortID := bag_sortID dataBag |}.

(** The completion callback of the write in [tryAcquireLock]. *)
Definition tryAcquireLock_done (this : FailOpen) (dataBag : AcquireLockData)
    (error : option JsError) : Pending * list AcquireEffect :=
  match error with
  | Some e =>
      if isConditionalCheckFailed e then
        if 0 <? bag_retryCount dataBag then
          checkForExistingLock this (setRetryCount dataBag (bag_retryCount dataBag - 1))
        else
          (Settled,
           [Callback (Some (FailOpenError "Failed to acquire lock." "FailedToAcquireLock" e))
                     None])
      else (Settled, [Callback (Some e) None])
  | None => (Settled, [Callback None (Some (newLockData this dataBag))])
  end.

Definition acquireLock (this : FailOpen) (host : Host) (randomUUID : string)
    (id : LockId) : Pending * list AcquireEffect :=
  let config := fo_config this in
  let '(partitionID, sortID) :=
    match id with
    | IdObject o => (prop o (partitionKey config),
                     prop o (default "undefined" (sortKey config)))
    | IdScalar v => (v, JUndefined)
    end in
  if bool_decide (is_Some (truthyString (sortKey config)) /\ sortID = JUndefined) then
    (Settled, [Callback (Some (Error "Lock ID is missing required sortKey value" None)) None])
  else
    checkForExistingLock this
      {| bag_partitionID := partitionID;
         bag_recordVersionNumber := randomUUID;
         bag_sortID := sortID;
         bag_ownerName :=
           if String.eqb (ownerName config) "" then
             pkg_name +:+ "@" +:+ pkg_version +:+ "_" +:+ username host
             +:+ "@" +:+ hostname host
           else ownerName config;
         bag_retryCount := fo_retryCount this |}.

(** The events an acquisition reacts to, and the handler each one runs. *)
Inductive AcquireEvent : Type :=
| GetDone (error : option JsError) (item : option (gmap string JsValue))
| TimeoutFired
| PutDone (error : option JsError).

Definition acquireStep (this : FailOpen) (p : Pending) (ev : AcquireEvent)
    (clock : Clock) : option (Pending * list AcquireEffect) :=
  match p, ev with
  | AwaitGet dataBag, GetDone error item =>
      Some (checkForExistingLock_done this dataBag error item clock)
  | AwaitTimeout dataBag lock, TimeoutFired =>
      Some (acquireExistingLock this dataBag lock clock)
  | AwaitPut dataBag, PutDone error =>
      Some (tryAcquireLock_done this dataBag error)
  | _, _ => None
  end.

(** A run: the effects of the handlers an event sequence triggers, in order.
    An event nothing waits for ends the run with [None]. *)
Fixpoint acquireRun (this : FailOpen) (p : Pending)
    (evs : list (AcquireEvent * Clock)) : option (Pending * list AcquireEffect) :=
  match evs with
  | [] => Some (p, [])
  | (ev, clock) :: rest =>
      match acquireStep this p ev clock with
      | Some (p', effs) =>
          match acquireRun this p' rest with
          | Some (p'', effs') => Some (p'', (effs ++ effs')%list)
          | None => None
          end
      | None => None
      end
  end.

(** ** class Lock *)

(** Timer handles returned by [setTimeout], and the callbacks passed to
    [release], are told apart by a number. *)
Definition TimerId : Type := nat.
Definition CallbackId : Type := nat.

(** The fields of a [Lock].  [refreshing] starts out unset, which every test
    in the source reads as [false]; [refreshCallback] holds the callback that
    [release.bind(this, callback)] captured. *)
Record Lock : Type := {
  lock_config : LockData;
  recordVersionNumber : string;
  released : bool;
  refreshing : bool;
  refreshCallback : option CallbackId;
  heartbeatTimeout : option TimerId
}.

(** What a lock does to its environment.  A write carries the [newGuid] its
    completion callback closes over, a delete the [callback] of the release
    that issued it and the exception, if any, that [send] raised at once. *)
Inductive LockEffect : Type :=
| LSendPut (params : PutCommandInput) (newGuid : string)
| LSendDelete (params : DeleteCommandInput) (callback : CallbackId)
    (thrown : option JsError)
| LSetTimeout (timer : TimerId) (ms : option Z)
| LClearTimeout (timer : TimerId)
| LCallback (callback : CallbackId) (error : option JsError)
| LEmitError (error : JsError)
| LWarn (message : string).

Definition setReleased (l : Lock) (b : bool) : Lock :=
  {| lock_config := lock_config l; recordVersionNumber := recordVersionNumber l;
     released := b; refreshing := refreshing l;
     refreshCallback := refreshCallback l; heartbeatTimeout := heartbeatTimeout l |}.

Definition setRefreshing (l : Lock) (b : bool) : Lock :=
  {| lock_config := lock_config l; recordVersionNumber := recordVersionNumber l;
     released := released l; refreshing := b;
     refreshCallback := refreshCallback l; heartbeatTimeout := heartbeatTimeout l |}.

Definition setRefreshCallback (l : Lock) (c : option CallbackId) : Lock :=
  {| lock_config := lock_config l; recordVersionNumber := recordVersionNumber l;
     released := released l; refreshing := refreshing l;
     refreshCallback := c; heartbeatTimeout := heartbeatTimeout l |}.

Definition setHeartbeatTimeout (l : Lock) (t : option TimerId) : Lock :=
  {| lock_config := lock_config l; recordVersionNumber := recordVersionNumber l;
     released := released l; refreshing := refreshing l;
     refreshCallback := refreshCallback l; heartbeatTimeout := t |}.

Definition setRecordVersionNumber (l : Lock) (g : string) : Lock :=
  {| lock_config := lock_config l; recordVersionNumber := g;
     released := released l; refreshing := refreshing l;
     refreshCallback := refreshCallback l; heartbeatTimeout := heartbeatTimeout l |}.

(** The constructor; [timer] is the handle [setTimeout] returns if it is
    called. *)
Definition Lock_new (config : LockData) (timer : TimerId) : Lock * list LockEffect :=
  let this :=
    {| lock_config := config;
       recordVersionNumber := data_recordVersionNumber config;
       released := false; refreshing := false;
       refreshCallback := None; heartbeatTimeout := None |} in
  if truthyNumber (heartbeatPeriodMs (data_config config)) then
    (setHeartbeatTimeout this (Some timer),
     [LSetTimeout timer (heartbeatPeriodMs (data_config config))])
  else (this, []).

Definition release_params (this : Lock) : DeleteCommandInput :=
  let config := data_config (lock_config this) in
  {| del_TableName := lockTable config;
     del_Key := buildKey (partitionKey config) (sortKey config)
                  (data_partitionID (lock_config this)) (data_sortID (lock_config this));
     del_ConditionExpression :=
       buildAttributeExistsExpression (sortKey config)
       +:+ " and recordVersionNumber = :recordVersionNumber";
     del_ExpressionAttributeNames :=
       buildExpressionAttributeNames (partitionKey config) (sortKey config);
     del_ExpressionAttributeValues :=
       {[ ":recordVersionNumber" := JString (recordVersionNumber this) ]} |}.

(** [release(callback)]; [thrown] is the exception the [send] of the delete
    raises synchronously, if it does, which the [catch] clause handles. *)
Definition release (callback : CallbackId) (thrown : option JsError) (this : Lock)
    : Lock * list LockEffect :=
  if released this then (this, [])
  else if refreshing this then (setRefreshCallback this (Some callback), [])
  else
    let this1 := setReleased this true in
    let '(this2, cleared) :=
      match heartbeatTimeout this1 with
      | Some t => (setHeartbeatTimeout this1 None, [LClearTimeout t])
      | None => (this1, [])
      end in
    let params := release_params this2 in
    match thrown with
    | None => (this2, (cleared ++ [LSendDelete params callback None])%list)
    | Some e =>
        (this2,
         (cleared ++
          [LSendDelete params callback (Some e);
           LWarn ("WARNING: Failed to release lock: " +:+ errorToString e);
           LCallback callback None])%list)
    end.

(** The completion callback of the delete in [release]. *)
Definition release_done (callback : CallbackId) (error : option JsError)
    : list LockEffect :=
  match error with
  | Some e =>
      if isConditionalCheckFailed e then
        [LWarn "WARNING: Failed to release lock: ConditionalCheckFailedException.";
         LCallback callback None]
      else [LCallback callback None]
  | None => [LCallback callback None]
  end.

Definition refreshLock_params (this : Lock) (newGuid : string) (clock : Clock)
    : PutCommandInput :=
  let config := data_config (lock_config this) in
  let item :=
    withAcquiredTime (trustLocalTime config) clock
      (baseItem (partitionKey config) (data_partitionID (lock_config this))
         (leaseDuration config) (leaseUnit config) (ownerName config) newGuid clock) in
  {| put_TableName := lockTable config;
     put_Item :=
       match truthyString (sortKey config) with
       | Some sk => <[ sk := data_sortID (lock_config this) ]> item
       | None => item
       end;
     put_ConditionExpression :=
       buildAttributeExistsExpression (sortKey config)
       +:+ " and recordVersionNumber = :recordVersionNumber";
     put_ExpressionAttributeNames :=
       buildExpressionAttributeNames (partitionKey config) (sortKey config);
     put_ExpressionAttributeValues :=
       Some {[ ":recordVersionNumber" := JString (recordVersionNumber this) ]} |}.

(** [refreshLock()], run by the heartbeat timer; [newGuid] is the value of
    [crypto.randomUUID()]. *)
Definition refreshLock (newGuid : string) (clock : Clock) (this : Lock)
    : Lock * list LockEffect :=
  let this1 := setRefreshing this true in
  (this1, [LSendPut (refreshLock_params this1 newGuid clock) newGuid]).

(** The completion callback of the write in [refreshLock]; [thrown] is passed
    on to the release it may run, [timer] is the handle [setTimeout] returns
    if it is called. *)
Definition refreshLock_done (newGuid : string) (error : option JsError)
    (thrown : option JsError) (timer : TimerId) (this : Lock)
    : Lock * list LockEffect :=
  let this1 := setRefreshing this false in
  let '(this2, ran) :=
    match refreshCallback this1 with
    | Some callback => release callback thrown this1
    | None => (this1, [])
    end in
  let this3 := setRefreshCallback this2 None in
  match error with
  | Some e => (this3, (ran ++ [LEmitError e])%list)
  | None =>
      let this4 := setRecordVersionNumber this3 newGuid in
      if released this4 then (this4, ran)
      else
        (setHeartbeatTimeout this4 (Some timer),
         (ran ++ [LSetTimeout timer
                    (heartbeatPeriodMs (data_config (lock_config this4)))])%list)
  end.

(** ** A lock in its environment *)

(** The lock together with what the event loop holds for it: the armed
    timers, the writes and deletes whose completion is outstanding, and the
    next unused timer handle. *)
Record World : Type := {
  w_lock : Lock;
  w_timers : list TimerId;
  w_puts : list string;
  w_deletes : list CallbackId;
  w_nextTimer : TimerId
}.

Inductive LockEvent : Type :=
| CallRelease (callback : CallbackId) (thrown : option JsError)
| TimerFires (timer : TimerId) (newGuid : string) (clock : Clock)
| PutCompletes (newGuid : string) (error : option JsError) (thrown : option JsError)
| DeleteCompletes (callback : CallbackId) (error : option JsError).

(** Remove the first occurrence. *)
Fixpoint removeFirst (x : nat) (l : list nat) : list nat :=
  match l with
  | [] => []
  | y :: r => if Nat.eqb x y then r else y :: removeFirst x r
  end.

Fixpoint removeFirstString (x : string) (l : list string) : list string :=
  match l with
  | [] => []
  | y :: r => if String.eqb x y then r else y :: removeFirstString x r
  end.

(** The bookkeeping of the event loop for one effect. *)
Definition applyEffect (w : World) (e : LockEffect) : World :=
  match e with
  | LSendPut _ newGuid =>
      {| w_lock := w_lock w; w_timers := w_timers w;
         w_puts := (w_puts w ++ [newGuid])%list;
         w_deletes := w_deletes w; w_nextTimer := w_nextTimer w |}
  | LSendDelete _ callback None =>
      {| w_lock := w_lock w; w_timers := w_timers w; w_puts := w_puts w;
         w_deletes := (w_deletes w ++ [callback])%list;
         w_nextTimer := w_nextTimer w |}
  | LSetTimeout timer _ =>
      {| w_lock := w_lock w; w_timers := (w_timers w ++ [timer])%list;
         w_puts := w_puts w; w_deletes := w_deletes w;
         w_nextTimer := S (Nat.max timer (w_nextTimer w)) |}
  | LClearTimeout timer =>
      {| w_lock := w_lock w; w_timers := removeFirst timer (w_timers w);
         w_puts := w_puts w; w_deletes := w_deletes w;
         w_nextTimer := w_nextTimer w |}
  | LSendDelete _ _ (Some _) | LCallback _ _ | LEmitError _ | LWarn _ => w
  end.

Definition setLock (w : World) (l : Lock) : World :=
  {| w_lock := l; w_timers := w_timers w; w_puts := w_puts w;
     w_deletes := w_deletes w; w_nextTimer := w_nextTimer w |}.

Definition settle (w : World) (r : Lock * list LockEffect) : World * list LockEffect :=
  (fold_left applyEffect (snd r) (setLock w (fst r)), snd r).

(** [new Lock(config)] in an empty event loop. *)
Definition initialWorld (config : LockData) : World * list LockEffect :=
  settle {| w_lock := fst (Lock_new config 0%nat); w_timers := []; w_puts := [];
            w_deletes := []; w_nextTimer := 0%nat |}
         (Lock_new config 0%nat).

(** One turn of the event loop.  A timer fires only while it is armed, a
    completion arrives only for a command that is outstanding; [release] can
    be called at any time. *)
Definition lockStep (w : World) (ev : LockEvent) : option (World * list LockEffect) :=
  match ev with
  | CallRelease callback thrown =>
      Some (settle w (release callback thrown (w_lock w)))
  | TimerFires timer newGuid clock =>
      if bool_decide (timer ∈ w_timers w) then
        Some (settle
                {| w_lock := w_lock w; w_timers := removeFirst timer (w_timers w);
                   w_puts := w_puts w; w_deletes := w_deletes w;
                   w_nextTimer := w_nextTimer w |}
                (refreshLock newGuid clock (w_lock w)))
      else None
  | PutCompletes newGuid error thrown =>
      if bool_decide (newGuid ∈ w_puts w) then
        Some (settle
                {| w_lock := w_lock w; w_timers := w_timers w;
                   w_puts := removeFirstString newGuid (w_puts w);
                   w_deletes := w_deletes w; w_nextTimer := w_nextTimer w |}
                (refreshLock_done newGuid error thrown (w_nextTimer w) (w_lock w)))
      else None
  | DeleteCompletes callback error =>
      if bool_decide (callback ∈ w_deletes w) then
        Some (settle
                {| w_lock := w_lock w; w_timers := w_timers w; w_puts := w_puts w;
                   w_deletes := removeFirst callback (w_deletes w);
                   w_nextTimer := w_nextTimer w |}
                (w_lock w, release_done callback error))
      else None
  end.

Fixpoint lockRun (w : World) (evs : list LockEvent) : option (World * list LockEffect) :=
  match evs with
  | [] => Some (w, [])
  | ev :: rest =>
      match lockStep w ev with
      | Some (w', effs) =>
          match lockRun w' rest with
          | Some (w'', effs') => Some (w'', (effs ++ effs')%list)
          | None => None
          end
      | None => None
      end
  end.

(** The worlds a lock can be in: those an event sequence leads to from its
    construction. *)
Inductive reachable (config : LockData) : World -> Prop :=
| reachable_init : reachable config (fst (initialWorld config))
| reachable_step w ev w' effs :
    reachable config w -> lockStep w ev = Some (w', effs) -> reachable config w'.

(** ** The store's reading of a condition expression *)

(** The fragment of DynamoDB's condition grammar the client writes, with the
    parentheses it writes. *)
Inductive Condition : Type :=
| CExists (name : string)
| CNotExists (name : string)
| CEquals (attribute value : string)
| CAnd (a b : Condition)
| COr (a b : Condition)
| CParen (a : Condition).

Fixpoint render (c : Condition) : string :=
  match c with
  | CExists n => "attribute_exists(" +:+ n +:+ ")"
  | CNotExists n => "attribute_not_exists(" +:+ n +:+ ")"
  | CEquals a v => a +:+ " = " +:+ v
  | CAnd a b => render a +:+ " and " +:+ render b
  | COr a b => render a +:+ " or " +:+ render b
  | CParen a => "(" +:+ render a +:+ ")"
  end.

(** Whether the condition holds of the record stored under the command's key
    ([None]: there is none).  [#name] placeholders are resolved through
    [names], [:value] placeholders through [values]. *)
Fixpoint holds (names : gmap string string) (values : gmap string JsValue)
    (stored : option (gmap string JsValue)) (c : Condition) : bool :=
  match c with
  | CExists n =>
      match names !! n, stored with
      | Some a, Some item => bool_decide (is_Some (item !! a))
      | _, _ => false
      end
  | CNotExists n =>
      match names !! n, stored with
      | Some a, Some item => bool_decide (item !! a = None)
      | Some _, None => true
      | None, _ => false
      end
  | CEquals a v =>
      match stored, values !! v with
      | Some item, Some x => bool_decide (item !! a = Some x)
      | _, _ => false
      end
  | CAnd a b => holds names values stored a && holds names values stored b
  | COr a b => holds names values stored a || holds names values stored b
  | CParen a => holds names values stored a
  end.

(** The precondition of the insert-if-absent. *)
Definition notExistsCondition (sortKey : option string) : Condition :=
  match truthyString sortKey with
  | Some _ => CParen (CAnd (CNotExists "#partitionKey") (CNotExists "#sortKey"))
  | None => CNotExists "#partitionKey"
  end.

(** The precondition of the overwrite after the wait. *)
Definition overwriteCondition (sortKey : option string) : Condition :=
  COr (notExistsCondition sortKey)
      (CParen (CEquals "recordVersionNumber" ":recordVersionNumber")).

(** ** Counting effects, and the states in which renewal has stopped *)

Definition isDelete (e : LockEffect) : bool :=
  match e with LSendDelete _ _ _ => true | _ => false end.

Definition isCallback (e : LockEffect) : bool :=
  match e with LCallback _ _ => true | _ => false end.

Definition isCallbackOf (callback : CallbackId) (e : LockEffect) : bool :=
  match e with LCallback c _ => Nat.eqb c callback | _ => false end.

(** Effects that renew or schedule a renewal. *)
Definition renews (e : LockEffect) : bool :=
  match e with LSendPut _ _ | LSetTimeout _ _ => true | _ => false end.

Definition count (f : LockEffect -> bool) (effs : list LockEffect) : nat :=
  length (filter (fun e => f e = true) effs).

(** No timer is armed, no write is outstanding and no renewal is marked in
    flight. *)
Definition idle (w : World) : Prop :=
  w_timers w = [] /\ w_puts w = [] /\ refreshing (w_lock w) = false.

(** What holds of every reachable world. *)
Definition consistent (w : World) : Prop :=
  (refreshing (w_lock w) = true ->
     released (w_lock w) = false /\ w_timers w = [] /\ exists g, w_puts w = [g])
  /\ (refreshing (w_lock w) = false ->
        w_puts w = [] /\ refreshCallback (w_lock w) = None)
  /\ (released (w_lock w) = true -> w_timers w = [])
  /\ (released (w_lock w) = false -> w_deletes w = [])
  /\ (forall t, t ∈ w_timers w ->
        w_timers w = [t] /\ heartbeatTimeout (w_lock w) = Some t).

(** ** Sample inputs *)

Definition sample_config : FailOpenConfig :=
  {| ownerName := "worker-1"; lockTable := "locks"; partitionKey := "id";
     sortKey := None; heartbeatPeriodMs := None; leaseDuration := 10;
     leaseUnit := seconds; trustLocalTime := false; retryCount := Some 0 |}.

Definition sample_client : FailOpen :=
  {| fo_config := sample_config; fo_retryCount := 0 |}.

Definition sample_trusting_client : FailOpen :=
  {| fo_config :=
       {| ownerName := "worker-1"; lockTable := "locks"; partitionKey := "id";
          sortKey := None; heartbeatPeriodMs := None; leaseDuration := 10;
          leaseUnit := seconds; trustLocalTime := true; retryCount := None |};
     fo_retryCount := 1 |}.

Definition sample_sorted_client : FailOpen :=
  {| fo_config :=
       {| ownerName := "worker-1"; lockTable := "locks"; partitionKey := "id";
          sortKey := Some "shard"; heartbeatPeriodMs := None; leaseDuration := 10;
          leaseUnit := seconds; trustLocalTime := false; retryCount := None |};
     fo_retryCount := 1 |}.

Definition sample_clock : Clock :=
  {| getTime := 1700000004000; toISOString := "2023-11-14T22:13:24.000Z" |}.

Definition sample_host : Host := {| username := "svc"; hostname := "box" |}.

Definition sample_bag : AcquireLockData :=
  {| bag_partitionID := JString "resource"; bag_recordVersionNumber := "B";
     bag_sortID := JUndefined; bag_ownerName := "worker-1"; bag_retryCount := 0 |}.

(** A record another holder wrote 4000 ms before [sample_clock]. *)
Definition sample_record : gmap string JsValue :=
  {[ "id" := JString "resource"; "leaseDuration" := JString "10000";
     "ownerName" := JString "worker-0"; "recordVersionNumber" := JString "A";
     "lockAcquiredTimeUnixMs" := JNumber 1700000000000 ]}.

(** A record whose stored lease duration is zero. *)
Definition zero_lease_record : gmap string JsValue :=
  {[ "id" := JString "resource"; "leaseDuration" := JString "0";
     "ownerName" := JString "worker-0"; "recordVersionNumber" := JString "A" ]}.

(** A conditional-check failure reported by an error that carries the [code]
    the handlers test. *)
Definition conditional_failure : JsError :=
  Error "The conditional request failed" (Some "ConditionalCheckFailedException").

Definition network_failure : JsError :=
  Error "socket hang up" (Some "TimeoutError").

(** The exception with which the imported document client fails a write or a
    delete whose condition does not hold: the failure is told by its [name],
    and it has no [code]. *)
Definition client_conditional_failure : JsError :=
  ServiceException "ConditionalCheckFailedException" "The conditional request failed".

(** A held lock with token ["A"], with and without a heartbeat. *)
Definition sample_lock_data (heartbeat : option Z) : LockData :=
  {| data_config :=
       {| ownerName := "worker-1"; lockTable := "locks"; partitionKey := "id";
          sortKey := None; heartbeatPeriodMs := heartbeat; leaseDuration := 10;
          leaseUnit := seconds; trustLocalTime := false; retryCount := None |};
     data_partitionID := JString "resource";
     data_recordVersionNumber := "A";
     data_sortID := JUndefined |}.

(** A configuration whose partition key is the attribute [createdAt]. *)
Definition createdAt_config : FailOpenConfig :=
  {| ownerName := "worker-1"; lockTable := "locks"; partitionKey := "createdAt";
     sortKey := None; heartbeatPeriodMs := None; leaseDuration := 10;
     leaseUnit := seconds; trustLocalTime := false; retryCount := None |}.

(** One round of a contended acquisition: the read's answer, the timer when a
    record was read, and a write that fails its condition. *)
Definition failedRound (e : JsError) (clock : Clock)
    (item : option (gmap string JsValue)) : list (AcquireEvent * Clock) :=
  match item with
  | Some _ => [(GetDone None item, clock); (TimeoutFired, clock); (PutDone (Some e), clock)]
  | None => [(GetDone None item, clock); (PutDone (Some e), clock)]
  end.

Definition isSendGet (e : AcquireEffect) : bool :=
  match e with SendGet _ => true | _ => false end.


(** The precondition of the renewal and of the delete. *)
Definition existsCondition (sortKey : option string) : Condition :=
  match truthyString sortKey with
  | Some _ => CParen (CAnd (CExists "#partitionKey") (CExists "#sortKey"))
  | None => CExists "#partitionKey"
  end.

Definition ownedCondition (sortKey : option string) : Condition :=
  CAnd (existsCondition sortKey)
       (CEquals "recordVersionNumber" ":recordVersionNumber").

(** How many deletes a lock may still send, and how many release callbacks
    may still be invoked. *)
Definition deleteBudget (w : World) : nat :=
  if released (w_lock w) then 0%nat else 1%nat.

Definition callbackBudget (w : World) : nat :=
  (length (w_deletes w) + deleteBudget w)%nat.

(** A lock held without a heartbeat, one held with a heartbeat of 3000 ms,
    and the latter once its timer has fired and the renewal carrying the
    token ["B"] is outstanding. *)
Definition held_world : World := fst (initialWorld (sample_lock_data None)).

Definition beating_world : World := fst (initialWorld (sample_lock_data (Some 3000))).

Definition renewing_world : World :=
  match lockStep beating_world (TimerFires 0%nat "B" sample_clock) with
  | Some (w, _) => w
  | None => beating_world
  end.

Definition isEmitError (e : LockEffect) : bool :=
  match e with LEmitError _ => true | _ => false end.

Definition isWarn (e : LockEffect) : bool :=
  match e with LWarn _ => true | _ => false end.

(** ** Proof automation *)

(** Unfolding a world and its lock so that the handlers compute. *)
Ltac open_world w :=
  destruct w as [[cfg rvn rel refr rcb hb] timers puts deletes next];
  cbn [w_lock w_timers w_puts w_deletes w_nextTimer lock_config recordVersionNumber
       released refreshing refreshCallback heartbeatTimeout] in *.

(** Use the facts at hand about concrete flags and one-element lists. *)
Ltac use_facts :=
  repeat match goal with
         | H : ?x = ?x -> _ |- _ => specialize (H eq_refl)
         | H : true = false -> _ |- _ => clear H
         | H : false = true -> _ |- _ => clear H
         | H : _ /\ _ |- _ => destruct H
         | H : exists _, _ |- _ => destruct H
         | H : _ \/ _ |- _ => destruct H
         | H : true = false |- _ => discriminate H
         | H : false = true |- _ => discriminate H
         | H : [] = _ :: _ |- _ => discriminate H
         | H : _ :: _ = [] |- _ => discriminate H
         | H : _ ∈ [] |- _ => apply elem_of_nil in H; contradiction
         | H : _ ∈ [_] |- _ => apply list_elem_of_singleton in H
         | H : ?x = ?x |- _ => clear H
         end;
  subst.

(** Split an invariant of a concrete world into its clauses and close them. *)
Ltac close_consistent :=
  unfold consistent, settle, setLock, setReleased, setRefreshing, setRefreshCallback,
    setHeartbeatTimeout, setRecordVersionNumber in *;
  simpl in *;
  repeat split; intros;
  use_facts; rewrite ?Nat.eqb_refl, ?String.eqb_refl in *; use_facts;
  try discriminate; try congruence; eauto.

(** Compute the counts and budgets of a concrete list of effects. *)
Ltac count_effects :=
  unfold count, callbackBudget, deleteBudget, settle, setLock, setReleased,
    setRefreshing, setRefreshCallback, setHeartbeatTimeout, setRecordVersionNumber in *;
  simpl in *; rewrite ?length_app in *; simpl in *;
  unfold CallbackId, TimerId in *.

(** ** Further definitions: the bundled build, counts and placeholders *)

(** The constructor of [class FailOpen] as bundled in dist/index.mjs, which
    has no test of the key names; the rest of the bundle is the text of
    index.ts with the types erased. *)
Definition dist_FailOpen_new (config : FailOpenConfig) : JsError + FailOpen :=
  inr {| fo_config := config; fo_retryCount := default 1 (retryCount config) |}.

Definition isSendPut (e : AcquireEffect) : bool :=
  match e with SendPut _ => true | _ => false end.

Definition isAcquireCallback (e : AcquireEffect) : bool :=
  match e with Callback _ _ => true | _ => false end.

Definition acquireCount (f : AcquireEffect -> bool) (effs : list AcquireEffect) : nat :=
  length (filter (fun e => f e = true) effs).

(** How many writes, reads and callbacks an acquisition may still perform. *)
Definition writesLeft (p : Pending) : nat :=
  match p with
  | AwaitGet d | AwaitTimeout d _ => S (Z.to_nat (bag_retryCount d))
  | AwaitPut d => Z.to_nat (bag_retryCount d)
  | Settled => 0
  end.

Definition readsLeft (p : Pending) : nat :=
  match p with
  | AwaitGet d | AwaitTimeout d _ | AwaitPut d => Z.to_nat (bag_retryCount d)
  | Settled => 0
  end.

Definition callbacksLeft (p : Pending) : nat :=
  match p with Settled => 0 | _ => 1 end.

(** The data bag an acquisition carries while it is pending. *)
Definition bagOf (p : Pending) : option AcquireLockData :=
  match p with
  | AwaitGet d | AwaitTimeout d _ | AwaitPut d => Some d
  | Settled => None
  end.

(** An error of the storage client, as opposed to the client's own
    [FailOpenError]. *)
Definition isStorageError (e : JsError) : bool :=
  match e with
  | Error _ _ | ServiceException _ _ => true
  | FailOpenError _ _ _ => false
  end.

Definition storageEvent (ev : AcquireEvent * Clock) : bool :=
  match fst ev with
  | GetDone (Some e) _ | PutDone (Some e) => isStorageError e
  | _ => true
  end.

(** The [#name] and [:value] placeholders a condition uses. *)
Fixpoint namesUsed (c : Condition) : gset string :=
  match c with
  | CExists n | CNotExists n => {[ n ]}
  | CEquals _ _ => ∅
  | CAnd a b | COr a b => namesUsed a ∪ namesUsed b
  | CParen a => namesUsed a
  end.

Fixpoint valuesUsed (c : Condition) : gset string :=
  match c with
  | CExists _ | CNotExists _ => ∅
  | CEquals _ v => {[ v ]}
  | CAnd a b | COr a b => valuesUsed a ∪ valuesUsed b
  | CParen a => valuesUsed a
  end.

(** [dataBag] with another token. *)
Definition setToken (dataBag : AcquireLockData) (g : string) : AcquireLockData :=
  {| bag_partitionID := bag_partitionID dataBag;
     bag_recordVersionNumber := g;
     bag_sortID := bag_sortID dataBag;
     bag_ownerName := bag_ownerName dataBag;
     bag_retryCount := bag_retryCount dataBag |}.

(** Nothing the lock or the event loop holds refers to [callback]: it is not
    the deferred callback, and no outstanding delete belongs to it. *)
Definition forgotten (callback : CallbackId) (w : World) : Prop :=
  refreshCallback (w_lock w) <> Some callback /\ callback ∉ w_deletes w.

(** A call of [release] with [callback]; a delete sent for [callback]. *)
Definition callsRelease (callback : CallbackId) (ev : LockEvent) : bool :=
  match ev with CallRelease c _ => Nat.eqb c callback | _ => false end.

Definition isDeleteOf (callback : CallbackId) (e : LockEffect) : bool :=
  match e with LSendDelete _ c _ => Nat.eqb c callback | _ => false end.

(** Two data bags that differ at most in the retry count. *)
Definition sameIdentity (d d' : AcquireLockData) : Prop :=
  setRetryCount d' 0 = setRetryCount d 0.

(** An effect of an acquisition that carries the identity of [dataBag]: a
    read of its key, a write of its item, a lock made from it. *)
Definition carriesIdentity (this : FailOpen) (dataBag : AcquireLockData)
    (e : AcquireEffect) : Prop :=
  match e with
  | SendGet params => params = checkForExistingLock_params this dataBag
  | SendPut params =>
      put_TableName params = lockTable (fo_config this)
      /\ exists clock, put_Item params = acquireItem this dataBag clock
  | Callback error (Some data) => error = None /\ data = newLockData this dataBag
  | Callback error None => error <> None
  | SetTimeout _ => True
  end.

(** * Properties *)

(** ** Helpers *)

Lemma getMsForLease_unitName time u :
  getMsForLease time (unitName u) = Some (leaseMs time u).
Proof. destruct u; reflexivity. Qed.

Example parseInt_examples :
  parseInt (JString "10000") = Some 10000
  /\ parseInt (JString "  -42px") = Some (-42)
  /\ parseInt (JString "0x1f") = Some 31
  /\ parseInt (JString "") = None
  /\ parseInt (JString "0") = Some 0
  /\ parseInt JUndefined = None
  /\ toString 86400000 = "86400000"
  /\ toString (-5) = "-5".
Proof. repeat split; reflexivity. Qed.

Lemma includes_In l s : includes l s = true <-> In s l.
Proof.
  unfold includes. rewrite existsb_exists. split.
  - intros (x & Hx & E). apply String.eqb_eq in E. now subst.
  - intros H. exists s. split; [exact H | apply String.eqb_refl].
Qed.

Lemma truthyString_Some o s : truthyString o = Some s -> o = Some s /\ s <> "".
Proof.
  destruct o as [x|]; simpl; [|discriminate].
  destruct (String.eqb_spec x ""); [discriminate|].
  intros [= ->]. auto.
Qed.

Lemma not_reserved_neq s :
  includes reservedFieldNames s = false ->
  s <> "leaseDuration" /\ s <> "lockAcquiredTimeUnixMs"
  /\ s <> "ownerName" /\ s <> "recordVersionNumber".
Proof.
  intros H. repeat split; intros ->; discriminate H.
Qed.

(** The constructor throws exactly on a partition key, or a non-empty sort
    key, that is one of the four names of [reservedFieldNames]. *)
Lemma FailOpen_new_throws config :
  (exists e, FailOpen_new config = inl e) <->
  (In (partitionKey config) reservedFieldNames
   \/ exists sk, truthyString (sortKey config) = Some sk /\ In sk reservedFieldNames).
Proof.
  unfold FailOpen_new.
  destruct (includes reservedFieldNames (partitionKey config)) eqn:Hp.
  - split; [|eauto]. intros _. left. now apply includes_In.
  - assert (Np : ~ In (partitionKey config) reservedFieldNames).
    { intros Hin. apply includes_In in Hin. congruence. }
    destruct (truthyString (sortKey config)) as [sk|] eqn:Hs.
    + destruct (includes reservedFieldNames sk) eqn:Hk.
      * split; [|eauto]. intros _. right. exists sk. split; [reflexivity|].
        now apply includes_In.
      * split.
        -- intros (e & He). discriminate He.
        -- intros [Hin | (sk' & [= <-] & Hin)]; [contradiction|].
           apply includes_In in Hin. congruence.
    + split.
      * intros (e & He). discriminate He.
      * intros [Hin | (sk' & Hsk & _)]; [contradiction | discriminate Hsk].
Qed.

Lemma FailOpen_new_inr config this :
  FailOpen_new config = inr this ->
  fo_config this = config
  /\ fo_retryCount this = default 1 (retryCount config)
  /\ includes reservedFieldNames (partitionKey config) = false
  /\ (forall sk, truthyString (sortKey config) = Some sk ->
        includes reservedFieldNames sk = false).
Proof.
  unfold FailOpen_new.
  destruct (includes reservedFieldNames (partitionKey config)) eqn:Hp; [discriminate|].
  destruct (truthyString (sortKey config)) as [sk|] eqn:Hs.
  - destruct (includes reservedFieldNames sk) eqn:Hk; [discriminate|].
    intros [= <-]. simpl. repeat split; auto. now intros sk' [= <-].
  - intros [= <-]. simpl. repeat split; auto. intros sk' [=].
Qed.

Lemma baseItem_createdAt pk pid d u o g clock :
  baseItem pk pid d u o g clock !! "createdAt" = Some (JString (toISOString clock)).
Proof. unfold baseItem. apply lookup_insert_eq. Qed.

Lemma baseItem_other pk pid d u o g clock k :
  k <> "createdAt" -> k <> "recordVersionNumber" -> k <> "ownerName" ->
  k <> "leaseDuration" -> k <> pk ->
  baseItem pk pid d u o g clock !! k = None.
Proof.
  intros. unfold baseItem.
  rewrite !lookup_insert_ne by congruence.
  apply lookup_singleton_ne. congruence.
Qed.

Lemma withAcquiredTime_other trust clock item k :
  k <> "lockAcquiredTimeUnixMs" ->
  withAcquiredTime trust clock item !! k = item !! k.
Proof.
  intros. unfold withAcquiredTime. destruct trust; [|reflexivity].
  apply lookup_insert_ne. congruence.
Qed.


Lemma names_partitionKey pk sko :
  buildExpressionAttributeNames pk sko !! "#partitionKey" = Some pk.
Proof.
  unfold buildExpressionAttributeNames. destruct (truthyString sko).
  - rewrite lookup_insert_ne by discriminate. apply lookup_singleton_eq.
  - apply lookup_singleton_eq.
Qed.

Lemma names_sortKey pk sko :
  buildExpressionAttributeNames pk sko !! "#sortKey" = truthyString sko.
Proof.
  unfold buildExpressionAttributeNames. destruct (truthyString sko).
  - apply lookup_insert_eq.
  - apply lookup_singleton_ne. discriminate.
Qed.

Lemma buildAttributeNotExistsExpression_render sko :
  buildAttributeNotExistsExpression sko = render (notExistsCondition sko).
Proof.
  unfold buildAttributeNotExistsExpression, notExistsCondition.
  destruct (truthyString sko); reflexivity.
Qed.

(** Against a store whose records carry their partition key, the
    insert-if-absent condition holds exactly when there is no record. *)
Lemma holds_notExists pk sko values stored :
  (forall item, stored = Some item -> is_Some (item !! pk)) ->
  holds (buildExpressionAttributeNames pk sko) values stored (notExistsCondition sko) = true
  <-> stored = None.
Proof.
  intros Hkey. unfold notExistsCondition.
  destruct (truthyString sko) as [sk|] eqn:Hs; simpl;
    rewrite ?names_partitionKey, ?names_sortKey, ?Hs.
  - destruct stored as [item|]; [|tauto].
    destruct (Hkey item eq_refl) as [x Hx]. rewrite Hx.
    rewrite bool_decide_eq_false_2 by discriminate. simpl.
    split; discriminate.
  - destruct stored as [item|]; [|tauto].
    destruct (Hkey item eq_refl) as [x Hx]. rewrite Hx.
    rewrite bool_decide_eq_false_2 by discriminate.
    split; discriminate.
Qed.

(** The overwrite condition holds exactly when there is no record or the
    record's token is the observed one. *)
Lemma holds_overwrite pk sko observed stored :
  (forall item, stored = Some item -> is_Some (item !! pk)) ->
  holds (buildExpressionAttributeNames pk sko)
        {[ ":recordVersionNumber" := observed ]} stored (overwriteCondition sko) = true
  <-> (stored = None
       \/ exists item, stored = Some item
                       /\ item !! "recordVersionNumber" = Some observed).
Proof.
  intros Hkey. unfold overwriteCondition.
  cbn [holds]. rewrite orb_true_iff, holds_notExists by exact Hkey.
  rewrite lookup_singleton_eq.
  destruct stored as [item|].
  - rewrite bool_decide_eq_true. split.
    + intros [H|H]; [discriminate | right; eauto].
    + intros [H|(i & [= <-] & H)]; [discriminate | right; exact H].
  - split; [auto|]. intros _. left. reflexivity.
Qed.

(** ** Numbers written as strings read back *)

Lemma digitValue_pretty_N_char x :
  (x < 10)%N -> digitValue (pretty_N_char x) = Some (Z.of_N x).
Proof.
  intros Hx.
  assert (x = 0 \/ x = 1 \/ x = 2 \/ x = 3 \/ x = 4 \/ x = 5 \/ x = 6 \/ x = 7
          \/ x = 8 \/ x = 9)%N as H by lia.
  repeat (destruct H as [-> | H]; [reflexivity|]). now subst.
Qed.

Lemma parseDigits_pretty_N_go x : forall s,
  (0 < x)%N ->
  parseDigits 10 (pretty_N_go x s) None = parseDigits 10 s (Some (Z.of_N x)).
Proof.
  induction (N.lt_wf_0 x) as [x _ IH]. intros s Hx.
  rewrite pretty_N_go_step by exact Hx.
  assert (Hmod : (x `mod` 10 < 10)%N) by (apply N.mod_lt; lia).
  pose proof (N.div_mod x 10%N) as Hdm.
  assert (Hlt : (Z.of_N (x `mod` 10) <? 10) = true) by (apply Z.ltb_lt; lia).
  destruct (N.eq_dec (x `div` 10)%N 0%N) as [Hz | Hnz].
  - rewrite Hz, pretty_N_go_0. cbn [parseDigits].
    rewrite digitValue_pretty_N_char, Hlt by exact Hmod.
    cbn [default from_option id].
    replace (10 * 0 + Z.of_N (x `mod` 10)) with (Z.of_N x) by lia.
    reflexivity.
  - rewrite IH; [| apply N.div_lt; lia | lia].
    cbn [parseDigits].
    rewrite digitValue_pretty_N_char, Hlt by exact Hmod.
    cbn [default from_option id].
    replace (10 * Z.of_N (x `div` 10) + Z.of_N (x `mod` 10)) with (Z.of_N x) by lia.
    reflexivity.
Qed.

Lemma pretty_N_go_head x : forall s,
  (0 < x)%N ->
  exists d r, (0 < d < 10)%N /\ pretty_N_go x s = String (pretty_N_char d) r.
Proof.
  induction (N.lt_wf_0 x) as [x _ IH]. intros s Hx.
  rewrite pretty_N_go_step by exact Hx.
  destruct (N.eq_dec (x `div` 10)%N 0%N) as [Hz | Hnz].
  - rewrite Hz, pretty_N_go_0. exists (x `mod` 10)%N, s. split; [|reflexivity].
    clear IH. pose proof (N.div_mod x 10%N). pose proof (N.mod_lt x 10%N). lia.
  - apply IH; [apply N.div_lt; clear IH; lia | now apply N.neq_0_lt_0].
Qed.

Lemma parseIntString_digit d r :
  (0 < d < 10)%N ->
  parseIntString (String (pretty_N_char d) r)
  = Z.mul 1 <$> parseDigits 10 (String (pretty_N_char d) r) None
  /\ parseIntString (String "-" (String (pretty_N_char d) r))
     = Z.mul (-1) <$> parseDigits 10 (String (pretty_N_char d) r) None.
Proof.
  intros Hd.
  assert (d = 1 \/ d = 2 \/ d = 3 \/ d = 4 \/ d = 5 \/ d = 6 \/ d = 7
          \/ d = 8 \/ d = 9)%N as H by lia.
  repeat (destruct H as [-> | H]; [split; reflexivity|]).
  subst. split; reflexivity.
Qed.

Lemma parseInt_toString n : parseInt (JString (toString n)) = Some n.
Proof.
  unfold parseInt, toString, pretty, pretty_Z.
  destruct n as [|p|p]; [reflexivity| |];
    unfold pretty, pretty_positive, pretty, pretty_N;
    rewrite decide_False by discriminate;
    destruct (pretty_N_go_head (N.pos p) "" eq_refl) as (d & r & Hdr & Heq);
    pose proof (parseDigits_pretty_N_go (N.pos p) "" eq_refl) as Hdigits;
    destruct (parseIntString_digit d r Hdr) as [Hpos Hneg];
    rewrite Heq in *.
  - rewrite Hpos, Hdigits. reflexivity.
  - change ("-" +:+ String (pretty_N_char d) r)
      with (String "-" (String (pretty_N_char d) r)).
    rewrite Hneg, Hdigits. reflexivity.
Qed.

(** A number read by [parseInt] is printed and read back. *)
Lemma parseInt_number n : parseInt (JNumber n) = Some n.
Proof. exact (parseInt_toString n). Qed.

Lemma leaseMs_nonzero time u : time <> 0 -> leaseMs time u <> 0.
Proof. intros H. destruct u; simpl; lia. Qed.

Lemma orDefault_nonzero x d : d <> 0 -> orDefault x d <> 0.
Proof.
  intros Hd. unfold orDefault. destruct x as [n|]; [|exact Hd].
  destruct (Z.eqb_spec n 0); congruence.
Qed.

(** ** Acquisition *)

(** C1, as stated, at a record whose stored lease duration is 0 and a client
    that does not trust the local clock: the claim gives a wait of 0, the
    stored duration; the client waits 10000 ms. *)
Lemma C1_zero_lease_waits_default :
  trustLocalTime (fo_config sample_client) = false
  /\ parseInt (prop zero_lease_record "leaseDuration") = Some 0
  /\ acquireStep sample_client (AwaitGet sample_bag)
       (GetDone None (Some zero_lease_record)) sample_clock
     = Some (AwaitTimeout sample_bag zero_lease_record, [SetTimeout (Some 10000)]).
Proof. repeat split; reflexivity. Qed.

(** C1 (amended): when the read finds a record, the client arms one timer
    and writes only when it fires.  With [stored] the record's [leaseDuration]
    read as an integer, or 10000 when that is 0 or does not read as one, the
    delay is [stored] when [trustLocalTime] is off, and
    [max 0 (stored - (now - acquired))] when it is on and the record's
    [lockAcquiredTimeUnixMs] reads as the integer [acquired]. *)
Theorem C1_wait_interval this dataBag lock clock :
  let stored :=
    match parseInt (prop lock "leaseDuration") with
    | Some d => if d =? 0 then 10000 else d
    | None => 10000
    end in
  exists t,
    acquireStep this (AwaitGet dataBag) (GetDone None (Some lock)) clock
    = Some (AwaitTimeout dataBag lock, [SetTimeout t])
    /\ (trustLocalTime (fo_config this) = false -> t = Some stored)
    /\ (forall acquired,
          trustLocalTime (fo_config this) = true ->
          parseInt (prop lock "lockAcquiredTimeUnixMs") = Some acquired ->
          t = Some (Z.max 0 (stored - (getTime clock - acquired))))
    /\ (forall clock', exists p,
          acquireStep this (AwaitTimeout dataBag lock) TimeoutFired clock'
          = Some (AwaitPut dataBag, [SendPut p])).
Proof.
  intros stored. exists (existingLockTimeout this lock clock).
  split; [reflexivity|]. unfold existingLockTimeout, orDefault. fold stored.
  repeat split.
  - intros ->. reflexivity.
  - intros acquired -> ->. reflexivity.
  - intros clock'. eexists. reflexivity.
Qed.

(** The scenario of a 10000 ms lease acquired 4000 ms ago, read by a client
    that trusts its clock: the wait is 6000 ms. *)
Lemma C1_wait_interval_witness :
  exists t,
    acquireStep sample_trusting_client (AwaitGet sample_bag)
      (GetDone None (Some sample_record)) sample_clock
    = Some (AwaitTimeout sample_bag sample_record, [SetTimeout t])
    /\ t = Some 6000.
Proof.
  destruct (C1_wait_interval sample_trusting_client sample_bag sample_record sample_clock)
    as (t & Hstep & _ & Htrust & _).
  exists t. split; [exact Hstep|].
  apply (Htrust 1700000000000); reflexivity.
Defined.

(** C2: when the read finds no record the client sends one write whose
    condition is the non-existence of the partition key attribute, in
    conjunction with the non-existence of the sort key attribute when a sort
    key is configured; it holds exactly when no record is stored.  When a
    record was read, the write sent after the wait has the condition "that
    non-existence, or [recordVersionNumber] equals the value read", which
    holds exactly when no record is stored or the stored token is the one
    observed. *)
Theorem C2_put_preconditions this dataBag clock :
  let config := fo_config this in
  (exists p,
     acquireStep this (AwaitGet dataBag) (GetDone None None) clock
     = Some (AwaitPut dataBag, [SendPut p])
     /\ put_ConditionExpression p = render (notExistsCondition (sortKey config))
     /\ put_ExpressionAttributeNames p !! "#partitionKey" = Some (partitionKey config)
     /\ put_ExpressionAttributeNames p !! "#sortKey" = truthyString (sortKey config)
     /\ (forall sk, truthyString (sortKey config) = Some sk ->
           notExistsCondition (sortKey config)
           = CParen (CAnd (CNotExists "#partitionKey") (CNotExists "#sortKey")))
     /\ (forall stored,
           (forall item, stored = Some item -> is_Some (item !! partitionKey config)) ->
           holds (put_ExpressionAttributeNames p)
                 (default ∅ (put_ExpressionAttributeValues p)) stored
                 (notExistsCondition (sortKey config)) = true
           <-> stored = None))
  /\ (forall lock clock', exists t p,
        acquireStep this (AwaitGet dataBag) (GetDone None (Some lock)) clock
        = Some (AwaitTimeout dataBag lock, [SetTimeout t])
        /\ acquireStep this (AwaitTimeout dataBag lock) TimeoutFired clock'
           = Some (AwaitPut dataBag, [SendPut p])
        /\ put_ConditionExpression p = render (overwriteCondition (sortKey config))
        /\ put_ExpressionAttributeNames p !! "#partitionKey" = Some (partitionKey config)
        /\ put_ExpressionAttributeNames p !! "#sortKey" = truthyString (sortKey config)
        /\ put_ExpressionAttributeValues p
           = Some {[ ":recordVersionNumber" := prop lock "recordVersionNumber" ]}
        /\ (forall stored,
              (forall item, stored = Some item -> is_Some (item !! partitionKey config)) ->
              holds (put_ExpressionAttributeNames p)
                    (default ∅ (put_ExpressionAttributeValues p)) stored
                    (overwriteCondition (sortKey config)) = true
              <-> (stored = None
                   \/ exists item,
                        stored = Some item
                        /\ item !! "recordVersionNumber"
                           = Some (prop lock "recordVersionNumber")))).
Proof.
  intros config. split.
  - exists (acquireNewLock_params this dataBag clock).
    split; [reflexivity|]. cbn [acquireNewLock_params put_ConditionExpression
      put_ExpressionAttributeNames put_ExpressionAttributeValues]. fold config.
    split; [apply buildAttributeNotExistsExpression_render|].
    split; [apply names_partitionKey|].
    split; [apply names_sortKey|].
    split.
    + intros sk Hsk. unfold notExistsCondition. now rewrite Hsk.
    + intros stored Hkey. now apply holds_notExists.
  - intros lock clock'.
    exists (existingLockTimeout this lock clock),
           (acquireExistingLock_params this dataBag lock clock').
    split; [reflexivity|]. split; [reflexivity|].
    cbn [acquireExistingLock_params put_ConditionExpression
      put_ExpressionAttributeNames put_ExpressionAttributeValues]. fold config.
    split.
    { rewrite buildAttributeNotExistsExpression_render. reflexivity. }
    split; [apply names_partitionKey|].
    split; [apply names_sortKey|].
    split; [reflexivity|].
    intros stored Hkey. now apply holds_overwrite.
Qed.

(** With a sort key configured and a record stored under another token, the
    insert-if-absent condition and the overwrite condition both fail; the
    overwrite condition holds of the record that was read. *)
Lemma C2_put_preconditions_witness :
  put_ConditionExpression (acquireNewLock_params sample_sorted_client sample_bag sample_clock)
  = "(attribute_not_exists(#partitionKey) and attribute_not_exists(#sortKey))"
  /\ put_ConditionExpression
       (acquireExistingLock_params sample_sorted_client sample_bag sample_record sample_clock)
     = "(attribute_not_exists(#partitionKey) and attribute_not_exists(#sortKey)) or (recordVersionNumber = :recordVersionNumber)"
  /\ (holds (buildExpressionAttributeNames "id" (Some "shard"))
            {[ ":recordVersionNumber" := JString "A" ]} (Some sample_record)
            (overwriteCondition (Some "shard")) = true
      <-> (Some sample_record = None
           \/ exists item, Some sample_record = Some item
                /\ item !! "recordVersionNumber" = Some (JString "A"))).
Proof.
  destruct (C2_put_preconditions sample_sorted_client sample_bag sample_clock)
    as [(p & Hp & Hc & _) Hexisting].
  destruct (Hexisting sample_record sample_clock)
    as (t & q & _ & Hq & Hcq & _ & _ & Hv & Hsem).
  injection Hp as <-. injection Hq as <-.
  split; [exact Hc|]. split; [exact Hcq|].
  apply (Hsem (Some sample_record)).
  intros item [= <-]. exists (JString "resource"). reflexivity.
Defined.

Lemma acquireRun_app this p evs1 evs2 p1 effs1 :
  acquireRun this p evs1 = Some (p1, effs1) ->
  acquireRun this p (evs1 ++ evs2)%list =
    match acquireRun this p1 evs2 with
    | Some (p2, effs2) => Some (p2, (effs1 ++ effs2)%list)
    | None => None
    end.
Proof.
  revert p p1 effs1. induction evs1 as [|[ev clock] evs1 IH]; intros p p1 effs1.
  - simpl. intros [= <- <-]. destruct (acquireRun this p evs2) as [[? ?]|]; reflexivity.
  - simpl. destruct (acquireStep this p ev clock) as [[p' effs]|]; [|discriminate].
    destruct (acquireRun this p' evs1) as [[p'' effs']|] eqn:Hrun; [|discriminate].
    intros [= <- <-]. rewrite (IH _ _ _ Hrun).
    destruct (acquireRun this p'' evs2) as [[? ?]|]; [|reflexivity].
    now rewrite app_assoc.
Qed.

(** One contended round from a pending read: the write fails its condition
    and the client either reads again with one retry less or gives up. *)
Lemma failedRound_run this dataBag e clock item :
  isConditionalCheckFailed e = true ->
  exists effs,
    acquireRun this (AwaitGet dataBag) (failedRound e clock item)
    = Some (fst (tryAcquireLock_done this dataBag (Some e)),
            (effs ++ snd (tryAcquireLock_done this dataBag (Some e)))%list)
    /\ filter (fun x => isSendGet x = true) effs = [].
Proof.
  intros He.
  destruct item as [lock|];
    cbn [failedRound acquireRun acquireStep checkForExistingLock_done
         acquireExistingLock acquireNewLock tryAcquireLock];
    destruct (tryAcquireLock_done this dataBag (Some e)) as [p effs];
    cbn [fst snd]; rewrite app_nil_r.
  - eexists [_; _]. split; reflexivity.
  - eexists [_]. split; reflexivity.
Qed.

(** The retry budget: when every write fails its condition, a client whose
    budget is [n >= 0] performs [n] further reads and then reports
    [FailOpenError]. *)
Lemma retry_budget_exhausted this e clock :
  isConditionalCheckFailed e = true ->
  forall (items : list (option (gmap string JsValue))) dataBag,
    0 <= bag_retryCount dataBag ->
    length items = S (Z.to_nat (bag_retryCount dataBag)) ->
    exists effs,
      acquireRun this (AwaitGet dataBag) (concat (map (failedRound e clock) items))
      = Some (Settled,
              (effs ++ [Callback (Some (FailOpenError "Failed to acquire lock."
                                          "FailedToAcquireLock" e)) None])%list)
      /\ length (filter (fun x => isSendGet x = true) effs)
         = Z.to_nat (bag_retryCount dataBag).
Proof.
  intros He items. induction items as [|item items IH]; intros dataBag Hn Hlen.
  - discriminate Hlen.
  - simpl. destruct (failedRound_run this dataBag e clock item He) as (effs1 & Hrun & Hget).
    rewrite (acquireRun_app _ _ _ _ _ _ Hrun).
    unfold tryAcquireLock_done. rewrite He.
    destruct (0 <? bag_retryCount dataBag) eqn:Hpos.
    + apply Z.ltb_lt in Hpos. cbn [checkForExistingLock fst snd].
      destruct (IH (setRetryCount dataBag (bag_retryCount dataBag - 1)))
        as (effs2 & Hrun2 & Hget2).
      * simpl. lia.
      * simpl in *. apply eq_add_S in Hlen. rewrite Hlen.
        rewrite <- Z2Nat.inj_succ by lia. f_equal. lia.
      * rewrite Hrun2. eexists. split.
        -- rewrite !app_assoc. reflexivity.
        -- rewrite !filter_app, !length_app, Hget, Hget2. simpl.
           change (bag_retryCount (setRetryCount dataBag (bag_retryCount dataBag - 1)))
             with (bag_retryCount dataBag - 1).
           rewrite <- Z2Nat.inj_succ by lia. f_equal. lia.
    + apply Z.ltb_ge in Hpos. assert (bag_retryCount dataBag = 0) as H0 by lia.
      rewrite H0 in Hlen. simpl in Hlen. destruct items; [|discriminate Hlen].
      cbn [fst snd map concat acquireRun]. exists effs1. split.
      * now rewrite app_nil_r.
      * rewrite Hget, H0. reflexivity.
Qed.

(** C5, at the failure as the imported client reports it.  A client built
    with the default retry count of 1 finds another holder's record, waits,
    and its overwrite fails its condition: the document client calls back
    with its [ConditionalCheckFailedException], which has that [name] and no
    [code].  The handler tests [error.code]: it does not take the failure
    for a conditional-check failure, sends no second read although a retry
    is left, and hands the exception itself to the callback, not a
    [FailOpenError]; so it does for every client, retry count and exception
    of the document client.  The same contention reported by an error that
    carries the code is retried: the second round runs with the retry count
    at 0, re-reads the same key, and its failure ends the acquisition with
    [FailOpenError]. *)
Theorem C5_client_failure_not_retried :
  exists first read wait write,
    retryCount (fo_config sample_trusting_client) = None
    /\ FailOpen_new (fo_config sample_trusting_client) = inr sample_trusting_client
    /\ acquireLock sample_trusting_client sample_host "B" (IdScalar (JString "resource"))
       = (AwaitGet first, [SendGet read])
    /\ bag_retryCount first = 1
    /\ errorName client_conditional_failure = "ConditionalCheckFailedException"
    /\ errorCode client_conditional_failure = None
    /\ acquireRun sample_trusting_client (AwaitGet first)
         (failedRound client_conditional_failure sample_clock (Some sample_record))
       = Some (Settled,
               [SetTimeout wait; SendPut write;
                Callback (Some client_conditional_failure) None])
    /\ (forall this dataBag name message clock,
          acquireStep this (AwaitPut dataBag)
            (PutDone (Some (ServiceException name message))) clock
          = Some (Settled, [Callback (Some (ServiceException name message)) None]))
    /\ exists second,
         acquireRun sample_trusting_client (AwaitGet first)
           (failedRound conditional_failure sample_clock (Some sample_record))
         = Some (AwaitGet second, [SetTimeout wait; SendPut write; SendGet read])
         /\ bag_retryCount second = 0
         /\ acquireRun sample_trusting_client (AwaitGet second)
              (failedRound conditional_failure sample_clock (Some sample_record))
            = Some (Settled,
                    [SetTimeout wait; SendPut write;
                     Callback (Some (FailOpenError "Failed to acquire lock."
                                       "FailedToAcquireLock" conditional_failure))
                              None]).
Proof.
  eexists _, _, _, _. split; [reflexivity|]. split; [reflexivity|].
  split; [vm_compute; reflexivity|].
  split; [reflexivity|]. split; [reflexivity|]. split; [reflexivity|].
  split; [vm_compute; reflexivity|].
  split; [intros; reflexivity|].
  eexists. split; [vm_compute; reflexivity|].
  split; [reflexivity|]. vm_compute. reflexivity.
Qed.

(** The sort-key property of an item is never one of the reserved names. *)
Lemma sortKey_property_not_reserved config this :
  FailOpen_new config = inr this ->
  includes reservedFieldNames (default "undefined" (sortKey config)) = false.
Proof.
  intros Hnew. apply FailOpen_new_inr in Hnew as (_ & _ & _ & Hres).
  destruct (sortKey config) as [sk|] eqn:Hsk; [|reflexivity].
  cbn. destruct (String.eqb_spec sk "") as [->|Hne]; [reflexivity|].
  apply Hres. cbn. now apply String.eqb_neq in Hne as ->.
Qed.

(** What a client writes for the lease duration, and for the time of
    acquisition when it trusts its clock, is what a reader finds. *)
Lemma acquireItem_reads_back config this dataBag clock :
  FailOpen_new config = inr this ->
  parseInt (prop (acquireItem this dataBag clock) "leaseDuration")
  = Some (leaseMs (orDefault (Some (leaseDuration config)) 10000) (leaseUnit config))
  /\ (trustLocalTime config = true ->
      parseInt (prop (acquireItem this dataBag clock) "lockAcquiredTimeUnixMs")
      = Some (getTime clock)).
Proof.
  intros Hnew. pose proof (sortKey_property_not_reserved _ _ Hnew) as Hkey.
  apply not_reserved_neq in Hkey as (Hl & Ha & _ & _).
  apply FailOpen_new_inr in Hnew as (Hcfg & _ & Hpk & _).
  apply not_reserved_neq in Hpk as (Hpl & _).
  assert (Hsort : forall item k,
             k <> default "undefined" (sortKey config) ->
             withSortID (sortKey config) (bag_sortID dataBag) item !! k = item !! k).
  { intros item k Hk. unfold withSortID. destruct (truthy _); [|reflexivity].
    apply lookup_insert_ne. congruence. }
  unfold acquireItem, prop. rewrite Hcfg. split.
  - rewrite Hsort by congruence.
    rewrite withAcquiredTime_other by discriminate.
    unfold baseItem. rewrite !lookup_insert_ne by discriminate.
    rewrite lookup_insert_eq. cbn [default from_option id].
    apply parseInt_toString.
  - intros Htrust. rewrite Hsort by congruence.
    unfold withAcquiredTime. rewrite Htrust, lookup_insert_eq.
    cbn [default from_option id]. apply parseInt_number.
Qed.

(** So a reader of a record that a client of this library wrote never falls
    back on the default of 10000 ms: it waits the writer's lease duration, or
    what the reader's clock says is left of it. *)
Lemma wait_for_written_record config writer dataBag written reader now :
  FailOpen_new config = inr writer ->
  let lease := leaseMs (orDefault (Some (leaseDuration config)) 10000) (leaseUnit config) in
  (trustLocalTime (fo_config reader) = false ->
   existingLockTimeout reader (acquireItem writer dataBag written) now = Some lease)
  /\ (trustLocalTime (fo_config reader) = true -> trustLocalTime config = true ->
      existingLockTimeout reader (acquireItem writer dataBag written) now
      = Some (Z.max 0 (lease - (getTime now - getTime written)))).
Proof.
  intros Hnew lease.
  destruct (acquireItem_reads_back _ _ dataBag written Hnew) as [Hlease Htime].
  assert (Hnz : orDefault (Some lease) 10000 = lease).
  { unfold orDefault. destruct (Z.eqb_spec lease 0) as [E|]; [|reflexivity].
    exfalso. revert E. apply leaseMs_nonzero, orDefault_nonzero. discriminate. }
  unfold existingLockTimeout. rewrite Hlease. fold lease. rewrite Hnz. split.
  - intros ->. reflexivity.
  - intros -> Htrust. now rewrite (Htime Htrust).
Qed.

(** C9, at the attribute name [createdAt]: every record the client writes
    carries a [createdAt] attribute, yet the name is not among
    [reservedFieldNames] and a configuration that uses it as partition key is
    accepted.  The client then reads under [createdAt = id] and writes an item
    whose [createdAt], the partition key, is the time stamp. *)
Theorem C9_createdAt_not_reserved :
  (forall pk pid d u o g clock,
      baseItem pk pid d u o g clock !! "createdAt" = Some (JString (toISOString clock)))
  /\ includes reservedFieldNames "createdAt" = false
  /\ FailOpen_new createdAt_config
     = inr {| fo_config := createdAt_config; fo_retryCount := 1 |}
  /\ get_Key (checkForExistingLock_params
                {| fo_config := createdAt_config; fo_retryCount := 1 |} sample_bag)
     !! "createdAt" = Some (JString "resource")
  /\ put_Item (acquireNewLock_params
                 {| fo_config := createdAt_config; fo_retryCount := 1 |}
                 sample_bag sample_clock)
     !! "createdAt" = Some (JString "2023-11-14T22:13:24.000Z").
Proof.
  split; [intros; apply baseItem_createdAt|].
  repeat split; reflexivity.
Qed.



(** ** The held lock *)

Lemma release_spec callback thrown this :
  release callback thrown this =
    if released this then (this, [])
    else if refreshing this then (setRefreshCallback this (Some callback), [])
    else
      (setHeartbeatTimeout (setReleased this true) None,
       (match heartbeatTimeout this with Some t => [LClearTimeout t] | None => [] end
        ++ LSendDelete (release_params (setHeartbeatTimeout (setReleased this true) None))
             callback thrown
           :: match thrown with
              | Some e => [LWarn ("WARNING: Failed to release lock: " +:+ errorToString e);
                           LCallback callback None]
              | None => []
              end)%list).
Proof.
  destruct this as [cfg rvn rel refr rcb hb]. unfold release. cbn.
  destruct rel; [reflexivity|]. destruct refr; [reflexivity|].
  destruct hb, thrown; reflexivity.
Qed.

Lemma release_released callback thrown this :
  released this = true -> release callback thrown this = (this, []).
Proof. intros H. rewrite release_spec, H. reflexivity. Qed.

Lemma release_params_token this :
  del_ExpressionAttributeValues (release_params this)
  = {[ ":recordVersionNumber" := JString (recordVersionNumber this) ]}.
Proof. reflexivity. Qed.

Lemma release_params_condition this :
  del_ConditionExpression (release_params this)
  = render (ownedCondition (sortKey (data_config (lock_config this)))).
Proof.
  unfold release_params, ownedCondition, existsCondition, buildAttributeExistsExpression.
  cbn [del_ConditionExpression]. destruct (truthyString _); reflexivity.
Qed.

Lemma removeFirst_same x : removeFirst x [x] = [].
Proof. simpl. now rewrite Nat.eqb_refl. Qed.

Lemma removeFirstString_same x : removeFirstString x [x] = [].
Proof. simpl. now rewrite String.eqb_refl. Qed.

Lemma removeFirst_length x l :
  x ∈ l -> S (length (removeFirst x l)) = length l.
Proof.
  induction l as [|y l IH]; intros Hin.
  - apply elem_of_nil in Hin. contradiction.
  - simpl. destruct (Nat.eqb_spec x y) as [->|Hne]; [reflexivity|].
    apply elem_of_cons in Hin as [->|Hin]; [contradiction|].
    simpl. now rewrite IH.
Qed.

Lemma count_app f l1 l2 : count f (l1 ++ l2) = (count f l1 + count f l2)%nat.
Proof. unfold count. now rewrite filter_app, length_app. Qed.

Lemma count_zero_iff f l : count f l = 0%nat <-> forall e, e ∈ l -> f e = false.
Proof.
  unfold count. induction l as [|x l IH].
  - split; [|reflexivity]. intros _ e He. apply elem_of_nil in He. contradiction.
  - rewrite filter_cons. destruct (decide (f x = true)) as [Hx|Hx].
    + split; [discriminate|]. intros H.
      assert (f x = false) by (apply H, elem_of_cons; now left). congruence.
    + rewrite IH. split.
      * intros H e He. apply elem_of_cons in He as [->|He]; [|now apply H].
        now destruct (f x).
      * intros H e He. apply H, elem_of_cons. now right.
Qed.

Lemma fold_applyEffect_lock effs w : w_lock (fold_left applyEffect effs w) = w_lock w.
Proof.
  revert w. induction effs as [|e effs IH]; intros w; [reflexivity|].
  simpl. rewrite IH. destruct e as [| ? ? [?|] | | | | |]; reflexivity.
Qed.

Lemma settle_inv w r w' effs :
  settle w r = (w', effs) -> (w_lock w', effs) = r.
Proof.
  unfold settle. intros [= <- <-]. rewrite fold_applyEffect_lock.
  now destruct r.
Qed.

Lemma lockStep_effects w ev w' effs :
  lockStep w ev = Some (w', effs) ->
  match ev with
  | CallRelease callback thrown =>
      (w_lock w', effs) = release callback thrown (w_lock w)
  | TimerFires timer newGuid clock =>
      timer ∈ w_timers w /\ (w_lock w', effs) = refreshLock newGuid clock (w_lock w)
  | PutCompletes newGuid error thrown =>
      newGuid ∈ w_puts w
      /\ (w_lock w', effs)
         = refreshLock_done newGuid error thrown (w_nextTimer w) (w_lock w)
  | DeleteCompletes callback error =>
      callback ∈ w_deletes w
      /\ (w_lock w', effs) = (w_lock w, release_done callback error)
  end.
Proof.
  unfold lockStep. destruct ev as [cb thr | t g c | g err thr | cb err].
  - intros H%(inj Some). now apply settle_inv in H.
  - case_bool_decide as Hin; [|discriminate]. intros H%(inj Some).
    split; [exact Hin|]. now apply settle_inv in H.
  - case_bool_decide as Hin; [|discriminate]. intros H%(inj Some).
    split; [exact Hin|]. now apply settle_inv in H.
  - case_bool_decide as Hin; [|discriminate]. intros H%(inj Some).
    split; [exact Hin|]. now apply settle_inv in H.
Qed.

Lemma consistent_timers w :
  consistent w ->
  w_timers w = [] \/ exists t, w_timers w = [t] /\ heartbeatTimeout (w_lock w) = Some t.
Proof.
  intros (_ & _ & _ & _ & I5). destruct (w_timers w) as [|t ts] eqn:E; [now left|].
  right. exists t. apply I5, elem_of_cons. now left.
Qed.

Local Opaque release_params refreshLock_params.

Lemma consistent_init config : consistent (fst (initialWorld config)).
Proof.
  unfold initialWorld, Lock_new.
  destruct (truthyNumber _); close_consistent.
Qed.

Lemma consistent_step w ev w' effs :
  consistent w -> lockStep w ev = Some (w', effs) -> consistent w'.
Proof.
  intros Hc Hstep. pose proof (consistent_timers w Hc) as Ht.
  destruct Hc as (I1 & I2 & I3 & I4 & _).
  open_world w. unfold lockStep in Hstep.
  destruct ev as [cb thr | t g c | g err thr | cb err];
    cbn [w_lock w_timers w_puts w_deletes w_nextTimer] in Hstep;
    try (case_bool_decide as Hin; [|discriminate]);
    apply (inj Some) in Hstep;
    destruct rel, refr; use_facts;
    unfold refreshLock_done, release_done in Hstep; cbn in Hstep;
    rewrite ?String.eqb_refl, ?Nat.eqb_refl in Hstep;
    repeat (match type of Hstep with
            | context [match ?x with _ => _ end] => is_var x; destruct x
            | context [isConditionalCheckFailed ?e] =>
                destruct (isConditionalCheckFailed e)
            end; cbn in Hstep);
    injection Hstep as <- <-; close_consistent.
Qed.

Lemma reachable_consistent config w : reachable config w -> consistent w.
Proof.
  induction 1 as [|w ev w' effs _ IH Hstep].
  - apply consistent_init.
  - exact (consistent_step _ _ _ _ IH Hstep).
Qed.

(** Each turn of the event loop spends what it uses of the two budgets. *)
Lemma lockStep_budget w ev w' effs :
  lockStep w ev = Some (w', effs) ->
  (count isDelete effs + deleteBudget w' <= deleteBudget w)%nat
  /\ (count isCallback effs + callbackBudget w' <= callbackBudget w)%nat.
Proof.
  intros Hstep. open_world w. unfold lockStep in Hstep.
  destruct ev as [cb thr | t g c | g err thr | cb err];
    cbn [w_lock w_timers w_puts w_deletes w_nextTimer] in Hstep;
    try (case_bool_decide as Hin; [|discriminate]);
    apply (inj Some) in Hstep;
    try (apply removeFirst_length in Hin);
    destruct rel, refr;
    unfold refreshLock_done, release_done in Hstep; cbn in Hstep;
    repeat (match type of Hstep with
            | context [match ?x with _ => _ end] => is_var x; destruct x
            | context [isConditionalCheckFailed ?e] =>
                destruct (isConditionalCheckFailed e)
            end; cbn in Hstep);
    injection Hstep as <- <-; count_effects; lia.
Qed.

Lemma lockRun_budget evs : forall w w' effs,
  lockRun w evs = Some (w', effs) ->
  (count isDelete effs + deleteBudget w' <= deleteBudget w)%nat
  /\ (count isCallback effs + callbackBudget w' <= callbackBudget w)%nat.
Proof.
  induction evs as [|ev evs IH]; intros w w' effs; simpl.
  - intros [= <- <-]. unfold count. simpl. lia.
  - destruct (lockStep w ev) as [[w1 effs1]|] eqn:Hstep; [|discriminate].
    destruct (lockRun w1 evs) as [[w2 effs2]|] eqn:Hrun; [|discriminate].
    intros [= <- <-]. rewrite !count_app.
    destruct (lockStep_budget _ _ _ _ Hstep), (IH _ _ _ Hrun). lia.
Qed.

(** Once nothing is armed or outstanding, no event renews the lock. *)
Lemma idle_step w ev w' effs :
  idle w -> lockStep w ev = Some (w', effs) -> idle w' /\ count renews effs = 0%nat.
Proof.
  intros (Ht & Hp & Hr) Hstep. open_world w. subst timers puts refr.
  unfold lockStep in Hstep.
  destruct ev as [cb thr | t g c | g err thr | cb err];
    cbn [w_lock w_timers w_puts w_deletes w_nextTimer] in Hstep;
    try (case_bool_decide as Hin; [|discriminate]);
    try (apply elem_of_nil in Hin; contradiction);
    apply (inj Some) in Hstep;
    destruct rel;
    unfold release_done in Hstep; cbn in Hstep;
    repeat (match type of Hstep with
            | context [match ?x with _ => _ end] => is_var x; destruct x
            | context [isConditionalCheckFailed ?e] =>
                destruct (isConditionalCheckFailed e)
            end; cbn in Hstep);
    injection Hstep as <- <-; unfold idle; count_effects; auto.
Qed.

Lemma idle_run evs : forall w w' effs,
  idle w -> lockRun w evs = Some (w', effs) -> idle w' /\ count renews effs = 0%nat.
Proof.
  induction evs as [|ev evs IH]; intros w w' effs Hidle; simpl.
  - intros [= <- <-]. auto.
  - destruct (lockStep w ev) as [[w1 effs1]|] eqn:Hstep; [|discriminate].
    destruct (lockRun w1 evs) as [[w2 effs2]|] eqn:Hrun; [|discriminate].
    intros [= <- <-]. rewrite count_app.
    destruct (idle_step _ _ _ _ Hidle Hstep) as [Hidle1 ->].
    destruct (IH _ _ _ Hidle1 Hrun) as [Hidle2 ->]. auto.
Qed.

Lemma elem_of_effects (e : LockEffect) (l : list LockEffect) : In e l -> e ∈ l.
Proof. apply list_elem_of_In. Qed.

(** C4: when [release] is called on a lock whose renewal is outstanding,
    nothing is sent and the callback is stored.  When the renewal's write
    then completes, with or without an error, that turn sends the delete of
    the stored release and arms no timer; the lock is released, and no later
    event sends a renewal or arms a timer. *)
Theorem C4_release_deferred_until_renewal_completes config w callback thrown :
  reachable config w ->
  refreshing (w_lock w) = true ->
  exists w1 g,
    lockStep w (CallRelease callback thrown) = Some (w1, [])
    /\ refreshCallback (w_lock w1) = Some callback
    /\ released (w_lock w1) = false
    /\ w_puts w1 = [g]
    /\ forall error thrown', exists w2 effs params,
         lockStep w1 (PutCompletes g error thrown') = Some (w2, effs)
         /\ LSendDelete params callback thrown' ∈ effs
         /\ count isDelete effs = 1%nat
         /\ count renews effs = 0%nat
         /\ released (w_lock w2) = true
         /\ idle w2
         /\ forall evs w3 effs',
              lockRun w2 evs = Some (w3, effs') -> count renews effs' = 0%nat.
Proof.
  intros Hreach Hrefr.
  destruct (reachable_consistent _ _ Hreach) as (I1 & _).
  destruct (I1 Hrefr) as (Hrel & Htimers & g & Hputs).
  open_world w. subst rel refr timers puts.
  eexists _, g. split.
  { unfold lockStep. rewrite release_spec. reflexivity. }
  cbn. repeat split.
  intros error thrown'.
  assert (Hlater : forall w2, idle w2 ->
            forall evs w3 effs', lockRun w2 evs = Some (w3, effs') ->
                                 count renews effs' = 0%nat).
  { intros w2 Hidle evs w3 effs' Hrun. exact (proj2 (idle_run _ _ _ _ Hidle Hrun)). }
  unfold lockStep. cbn [w_puts w_lock w_timers w_deletes w_nextTimer].
  rewrite bool_decide_eq_true_2 by (apply list_elem_of_singleton; reflexivity).
  unfold refreshLock_done. cbn. rewrite String.eqb_refl.
  destruct hb as [t|], error as [e|], thrown' as [x|]; cbn;
    (eexists _, _, _; split; [reflexivity|];
     split; [apply elem_of_effects; simpl; eauto 6|];
     split; [reflexivity|]; split; [reflexivity|]; split; [reflexivity|];
     split; [now repeat split | apply Hlater; now repeat split]).
Qed.

Lemma renewing_world_reachable : reachable (sample_lock_data (Some 3000)) renewing_world.
Proof.
  eapply (reachable_step _ beating_world (TimerFires 0%nat "B" sample_clock));
    [apply reachable_init|].
  vm_compute. reflexivity.
Qed.

(** A release with callback 7 requested while the renewal ["B"] of the sample
    lock is outstanding, and the renewal then succeeding. *)
Lemma C4_release_deferred_witness :
  exists w1 g,
    lockStep renewing_world (CallRelease 7%nat None) = Some (w1, [])
    /\ refreshCallback (w_lock w1) = Some 7%nat
    /\ w_puts w1 = [g]
    /\ exists w2 effs params,
         lockStep w1 (PutCompletes g None None) = Some (w2, effs)
         /\ LSendDelete params 7%nat None ∈ effs
         /\ count renews effs = 0%nat
         /\ released (w_lock w2) = true.
Proof.
  destruct (C4_release_deferred_until_renewal_completes
              (sample_lock_data (Some 3000)) renewing_world 7%nat None
              renewing_world_reachable eq_refl)
    as (w1 & g & Hcall & Hcb & _ & Hputs & Hdone).
  exists w1, g. split; [exact Hcall|]. split; [exact Hcb|]. split; [exact Hputs|].
  destruct (Hdone None None) as (w2 & effs & params & Hstep & Hdel & _ & Hren & Hrel & _).
  exists w2, effs, params. auto.
Defined.

(** C8: when the write of a renewal completes with an error, that turn emits
    the error, leaves the lock's token as it was, sends no write and arms no
    timer; nothing is armed or outstanding afterwards and no later event
    renews the lock.  The [released] flag is not set, except by a release the
    caller had requested while the renewal was outstanding, which runs in the
    same turn. *)
Theorem C8_renewal_failure config w g e thrown w' effs :
  reachable config w ->
  lockStep w (PutCompletes g (Some e) thrown) = Some (w', effs) ->
  LEmitError e ∈ effs
  /\ count isEmitError effs = 1%nat
  /\ recordVersionNumber (w_lock w') = recordVersionNumber (w_lock w)
  /\ count renews effs = 0%nat
  /\ idle w'
  /\ (forall evs w'' effs',
        lockRun w' evs = Some (w'', effs') -> count renews effs' = 0%nat)
  /\ (refreshCallback (w_lock w) = None ->
        released (w_lock w') = false /\ effs = [LEmitError e])
  /\ (released (w_lock w') = true ->
        exists callback params,
          refreshCallback (w_lock w) = Some callback
          /\ LSendDelete params callback thrown ∈ effs).
Proof.
  intros Hreach Hstep.
  destruct (reachable_consistent _ _ Hreach) as (I1 & I2 & _).
  assert (Hlater : forall w2, idle w2 ->
            forall evs w3 effs', lockRun w2 evs = Some (w3, effs') ->
                                 count renews effs' = 0%nat).
  { intros w2 Hidle evs w3 effs' Hrun. exact (proj2 (idle_run _ _ _ _ Hidle Hrun)). }
  open_world w. unfold lockStep in Hstep.
  cbn [w_puts w_lock w_timers w_deletes w_nextTimer] in Hstep.
  case_bool_decide as Hin; [|discriminate]. apply (inj Some) in Hstep.
  destruct refr;
    [|destruct (I2 eq_refl) as (-> & _); apply elem_of_nil in Hin; contradiction].
  destruct (I1 eq_refl) as (-> & -> & g0 & ->).
  apply list_elem_of_singleton in Hin. subst g0.
  unfold refreshLock_done in Hstep. cbn in Hstep. rewrite String.eqb_refl in Hstep.
  destruct rcb as [cb|], hb as [t|], thrown as [x|];
    cbn in Hstep; injection Hstep as <- <-; cbn;
    (split; [apply elem_of_effects; simpl; eauto 6|]);
    (split; [reflexivity|]); (split; [reflexivity|]); (split; [reflexivity|]);
    (split; [now repeat split|]);
    (split; [apply Hlater; now repeat split|]);
    (split; [try discriminate; auto|]);
    try discriminate;
    (intros _; eexists _, _; split; [reflexivity|];
     apply elem_of_effects; simpl; eauto 6).
Qed.

(** The renewal ["B"] of the sample lock fails its condition with no release
    requested: the error is emitted, the lock keeps ["A"] and is not
    released. *)
Lemma C8_renewal_failure_witness :
  exists w' effs,
    lockStep renewing_world (PutCompletes "B" (Some conditional_failure) None)
    = Some (w', effs)
    /\ effs = [LEmitError conditional_failure]
    /\ recordVersionNumber (w_lock w') = "A"
    /\ released (w_lock w') = false
    /\ idle w'.
Proof.
  eexists _, _. split; [vm_compute; reflexivity|].
  destruct (C8_renewal_failure (sample_lock_data (Some 3000)) renewing_world "B"
              conditional_failure None _ _ renewing_world_reachable
              ltac:(vm_compute; reflexivity))
    as (_ & _ & Htoken & _ & Hidle & _ & Hkeep & _).
  destruct (Hkeep eq_refl) as [Hrel Heffs].
  split; [exact Heffs|]. split; [exact Htoken|]. split; [exact Hrel|]. exact Hidle.
Defined.

(** A deferred release that runs when a renewal succeeds sends its delete
    before the new token is adopted: the delete compares against the token
    the lock held before the renewal. *)
Lemma deferred_release_token newGuid thrown timer this callback :
  released this = false ->
  refreshCallback this = Some callback ->
  exists cleared rest,
    snd (refreshLock_done newGuid None thrown timer this)
    = (cleared
       ++ LSendDelete
            (release_params
               (setHeartbeatTimeout (setReleased (setRefreshing this false) true) None))
            callback thrown :: rest)%list
    /\ del_ExpressionAttributeValues
         (release_params
            (setHeartbeatTimeout (setReleased (setRefreshing this false) true) None))
       = {[ ":recordVersionNumber" := JString (recordVersionNumber this) ]}
    /\ recordVersionNumber (fst (refreshLock_done newGuid None thrown timer this))
       = newGuid.
Proof.
  intros Hrel Hcb. destruct this as [cfg rvn rel refr rcb hb].
  cbn in Hrel, Hcb. subst rel rcb.
  exists (match hb with Some t => [LClearTimeout t] | None => [] end),
         (match thrown with
          | Some e => [LWarn ("WARNING: Failed to release lock: " +:+ errorToString e);
                       LCallback callback None]
          | None => []
          end).
  unfold refreshLock_done. cbn -[release_params].
  destruct hb as [t|], thrown as [x|]; cbn -[release_params];
    (split; [reflexivity|]); split; reflexivity.
Qed.

(** C3, on the sample lock holding token ["A"]: its heartbeat fires and the
    renewal with token ["B"] is sent, [release] is called, the renewal
    succeeds.  The lock adopts ["B"], but the delete sent for the release
    carries ["A"]; against the record the renewal has just written its
    condition does not hold. *)
Theorem C3_deferred_release_compares_old_token :
  exists w renewal deletion,
    lockRun beating_world
      [TimerFires 0%nat "B" sample_clock; CallRelease 7%nat None;
       PutCompletes "B" None None]
    = Some (w, [LSendPut renewal "B"; LClearTimeout 0%nat; LSendDelete deletion 7%nat None])
    /\ recordVersionNumber (w_lock w) = "B"
    /\ put_Item renewal !! "recordVersionNumber" = Some (JString "B")
    /\ del_ExpressionAttributeValues deletion
       = {[ ":recordVersionNumber" := JString "A" ]}
    /\ del_ConditionExpression deletion = render (ownedCondition None)
    /\ holds (del_ExpressionAttributeNames deletion)
             (del_ExpressionAttributeValues deletion)
             (Some (put_Item renewal)) (ownedCondition None) = false.
Proof.
  eexists _, _, _. split; [vm_compute; reflexivity|].
  repeat split; vm_compute; reflexivity.
Qed.

(** C6, as stated, on the sample lock held without a heartbeat: [release] is
    called with callback 1, then with callback 2, and the delete completes.
    Callback 1 is invoked once and callback 2 never, and nothing remains armed
    or outstanding that could invoke it. *)
Lemma C6_second_callback_never_invoked :
  exists w deletion,
    lockRun held_world
      [CallRelease 1%nat None; CallRelease 2%nat None; DeleteCompletes 1%nat None]
    = Some (w, [LSendDelete deletion 1%nat None; LCallback 1%nat None])
    /\ count (isCallbackOf 2%nat)
         [LSendDelete deletion 1%nat None; LCallback 1%nat None] = 0%nat
    /\ w_timers w = [] /\ w_puts w = [] /\ w_deletes w = []
    /\ refreshCallback (w_lock w) = None.
Proof.
  eexists _, _. split; [vm_compute; reflexivity|].
  repeat split.
Qed.

(** C6 (amended): over any sequence of calls and completions a lock sends at
    most one delete and invokes at most one release callback.  A call of
    [release] on a released lock sends nothing and invokes nothing.  Of two
    calls in a row on a held lock with no renewal outstanding, the first
    sends the one delete and its callback is invoked once, with no error,
    when the delete completes; the callback of the second is not invoked. *)
Theorem C6_release_twice :
  (forall config evs w effs,
      lockRun (fst (initialWorld config)) evs = Some (w, effs) ->
      (count isDelete effs <= 1)%nat /\ (count isCallback effs <= 1)%nat)
  /\ (forall this callback thrown,
        released this = true -> release callback thrown this = (this, []))
  /\ (forall config w c1 c2 thrown2 error,
        reachable config w ->
        released (w_lock w) = false -> refreshing (w_lock w) = false ->
        exists w' effs,
          lockRun w [CallRelease c1 None; CallRelease c2 thrown2;
                     DeleteCompletes c1 error]
          = Some (w', effs)
          /\ count isDelete effs = 1%nat
          /\ count isCallback effs = 1%nat
          /\ LCallback c1 None ∈ effs
          /\ (c2 <> c1 -> count (isCallbackOf c2) effs = 0%nat)).
Proof.
  split; [|split].
  - intros config evs w effs Hrun.
    destruct (lockRun_budget _ _ _ _ Hrun) as [Hd Hc].
    assert (deleteBudget (fst (initialWorld config)) = 1%nat
            /\ callbackBudget (fst (initialWorld config)) = 1%nat) as [Hd0 Hc0].
    { unfold initialWorld, Lock_new. destruct (truthyNumber _); split; reflexivity. }
    lia.
  - intros. now apply release_released.
  - intros config w c1 c2 thrown2 error Hreach Hrel Hrefr.
    pose proof (reachable_consistent _ _ Hreach) as Hc.
    pose proof (consistent_timers _ Hc) as Ht.
    destruct Hc as (_ & I2 & _ & I4 & _).
    destruct (I2 Hrefr) as [Hputs Hcb]. specialize (I4 Hrel).
    open_world w. subst rel refr puts rcb deletes.
    destruct Ht as [-> | (t & -> & ->)]; [destruct hb as [t|] |];
      unfold lockRun, lockStep, release_done;
      cbn; rewrite ?Nat.eqb_refl; cbn;
      rewrite bool_decide_eq_true_2 by (apply list_elem_of_singleton; reflexivity);
      cbn; rewrite ?Nat.eqb_refl; cbn;
      (destruct error as [e|]; [destruct (isConditionalCheckFailed e)|]);
      cbn; eexists _, _; (split; [reflexivity|]);
      (split; [reflexivity|]); (split; [reflexivity|]);
      (split; [apply elem_of_effects; simpl; eauto 6|]);
      intros Hne; assert (Nat.eqb c1 c2 = false) as Hne'
        by (apply Nat.eqb_neq; congruence);
      unfold count; cbn; rewrite ?Hne'; reflexivity.
Qed.

Lemma held_world_reachable : reachable (sample_lock_data None) held_world.
Proof. apply reachable_init. Qed.

(** Two calls in a row on the sample lock held without a heartbeat. *)
Lemma C6_release_twice_witness :
  exists w' effs,
    lockRun held_world
      [CallRelease 1%nat None; CallRelease 2%nat None; DeleteCompletes 1%nat None]
    = Some (w', effs)
    /\ count isDelete effs = 1%nat
    /\ count (isCallbackOf 2%nat) effs = 0%nat.
Proof.
  destruct C6_release_twice as (_ & _ & Htwice).
  destruct (Htwice (sample_lock_data None) held_world 1%nat 2%nat None None
              held_world_reachable eq_refl eq_refl)
    as (w' & effs & Hrun & Hdel & _ & _ & Hsecond).
  exists w', effs. split; [exact Hrun|]. split; [exact Hdel|].
  apply Hsecond. discriminate.
Defined.

(** C7, at a delete that fails with an error other than one carrying the
    code [ConditionalCheckFailedException]: the callback is invoked with no
    error and nothing is logged, while the same error raised as the delete
    is being sent is logged by the [catch] clause.  So it is for every error
    the delete completes with whose [code] is not that one, the document
    client's own [ConditionalCheckFailedException] included, which has the
    [name] and no [code]. *)
Theorem C7_delete_failure_not_logged :
  exists w deletion,
    isConditionalCheckFailed network_failure = false
    /\ lockRun held_world
         [CallRelease 1%nat None; DeleteCompletes 1%nat (Some network_failure)]
       = Some (w, [LSendDelete deletion 1%nat None; LCallback 1%nat None])
    /\ count isWarn [LSendDelete deletion 1%nat None; LCallback 1%nat None] = 0%nat
    /\ (exists w',
          lockRun held_world [CallRelease 1%nat (Some network_failure)]
          = Some (w', [LSendDelete deletion 1%nat (Some network_failure);
                       LWarn "WARNING: Failed to release lock: Error: socket hang up";
                       LCallback 1%nat None]))
    /\ (forall callback e,
          isConditionalCheckFailed e = false ->
          release_done callback (Some e) = [LCallback callback None])
    /\ isConditionalCheckFailed client_conditional_failure = false
    /\ release_done 1%nat (Some client_conditional_failure) = [LCallback 1%nat None].
Proof.
  eexists _, _. split; [reflexivity|]. split; [vm_compute; reflexivity|].
  split; [reflexivity|].
  split; [eexists; vm_compute; reflexivity|].
  split; [intros callback e He; unfold release_done; now rewrite He|].
  split; reflexivity.
Qed.

(** ** The model at work *)

(** An uncontended acquisition: the read finds nothing, the insert succeeds
    and the callback receives the lock. *)
Example uncontended_acquisition :
  exists item,
    acquireRun sample_client (AwaitGet sample_bag)
      [(GetDone None None, sample_clock); (PutDone None, sample_clock)]
    = Some (Settled,
            [SendPut {| put_TableName := "locks"; put_Item := item;
                        put_ConditionExpression := "attribute_not_exists(#partitionKey)";
                        put_ExpressionAttributeNames := {[ "#partitionKey" := "id" ]};
                        put_ExpressionAttributeValues := None |};
             Callback None (Some (newLockData sample_client sample_bag))])
    /\ item !! "id" = Some (JString "resource")
    /\ item !! "leaseDuration" = Some (JString "10000")
    /\ item !! "recordVersionNumber" = Some (JString "B")
    /\ item !! "lockAcquiredTimeUnixMs" = None.
Proof. eexists. split; [vm_compute; reflexivity|]. repeat split. Qed.

(** Two heartbeats and a release with no renewal outstanding: each renewal
    is conditioned on the token before it, and the delete on the last one. *)
Example heartbeats_then_release :
  exists w first second deletion,
    lockRun beating_world
      [TimerFires 0%nat "B" sample_clock; PutCompletes "B" None None;
       TimerFires 1%nat "C" sample_clock; PutCompletes "C" None None;
       CallRelease 7%nat None; DeleteCompletes 7%nat None]
    = Some (w, [LSendPut first "B"; LSetTimeout 1%nat (Some 3000);
                LSendPut second "C"; LSetTimeout 2%nat (Some 3000);
                LClearTimeout 2%nat; LSendDelete deletion 7%nat None;
                LCallback 7%nat None])
    /\ put_ExpressionAttributeValues first
       = Some {[ ":recordVersionNumber" := JString "A" ]}
    /\ put_ExpressionAttributeValues second
       = Some {[ ":recordVersionNumber" := JString "B" ]}
    /\ del_ExpressionAttributeValues deletion
       = {[ ":recordVersionNumber" := JString "C" ]}
    /\ holds (del_ExpressionAttributeNames deletion)
             (del_ExpressionAttributeValues deletion)
             (Some (put_Item second)) (ownedCondition None) = true
    /\ released (w_lock w) = true /\ idle w.
Proof.
  eexists _, _, _, _. split; [vm_compute; reflexivity|].
  repeat split; vm_compute; reflexivity.
Qed.

(** * Further properties *)

Local Transparent release_params refreshLock_params.

(** ** The constructor and the lease units *)

(** X1: the constructor of index.ts throws exactly when the partition key,
    or a sort key other than the empty string, is one of the four names of
    [reservedFieldNames]; the partition key is tested first and the message
    names the offending key.  Otherwise the client keeps the configuration,
    with a retry count of 1 when none is given and the given one, 0
    included, when one is. *)
Theorem X1_constructor_validation config :
  ((exists e, FailOpen_new config = inl e) <->
   (In (partitionKey config) reservedFieldNames
    \/ exists sk, sortKey config = Some sk /\ sk <> "" /\ In sk reservedFieldNames))
  /\ (In (partitionKey config) reservedFieldNames ->
      FailOpen_new config
      = inl (Error ("Cannot use reserved field name " +:+ partitionKey config
                    +:+ " for partition key.") None))
  /\ (forall sk, ~ In (partitionKey config) reservedFieldNames ->
        sortKey config = Some sk -> sk <> "" -> In sk reservedFieldNames ->
        FailOpen_new config
        = inl (Error ("Cannot use reserved field name " +:+ sk +:+ " for sort key.") None))
  /\ (forall this, FailOpen_new config = inr this ->
        fo_config this = config
        /\ (retryCount config = None -> fo_retryCount this = 1)
        /\ (forall n, retryCount config = Some n -> fo_retryCount this = n)).
Proof.
  assert (Hts : forall sk, truthyString (sortKey config) = Some sk
                           <-> sortKey config = Some sk /\ sk <> "").
  { intros sk. split.
    - apply truthyString_Some.
    - intros [-> Hne]. cbn. now apply String.eqb_neq in Hne as ->. }
  split; [|split; [|split]].
  - rewrite FailOpen_new_throws. split.
    + intros [H | (sk & Hsk & Hin)]; [now left|].
      right. exists sk. apply Hts in Hsk as [? ?]. auto.
    + intros [H | (sk & Hsk & Hne & Hin)]; [now left|].
      right. exists sk. split; [apply Hts; auto | exact Hin].
  - intros Hin. apply includes_In in Hin. unfold FailOpen_new. now rewrite Hin.
  - intros sk Hpk Hsk Hne Hin. unfold FailOpen_new.
    destruct (includes reservedFieldNames (partitionKey config)) eqn:Hp.
    { apply includes_In in Hp. contradiction. }
    rewrite (proj2 (Hts sk) (conj Hsk Hne)).
    apply includes_In in Hin. now rewrite Hin.
  - intros this Hnew. apply FailOpen_new_inr in Hnew as (Hcfg & Hretry & _).
    split; [exact Hcfg|]. split.
    + intros Hnone. now rewrite Hretry, Hnone.
    + intros n Hn. now rewrite Hretry, Hn.
Qed.

(** X2: the constructor bundled in dist/index.mjs never throws.  It builds
    the client that the constructor of index.ts builds whenever that one
    accepts the configuration, and it also accepts every configuration that
    one rejects. *)
Theorem X2_bundled_constructor_accepts_all config :
  (exists this, dist_FailOpen_new config = inr this
                /\ fo_config this = config
                /\ fo_retryCount this = default 1 (retryCount config))
  /\ (forall this, FailOpen_new config = inr this -> dist_FailOpen_new config = inr this)
  /\ (forall e, FailOpen_new config = inl e ->
        exists this, dist_FailOpen_new config = inr this
                     /\ (includes reservedFieldNames (partitionKey (fo_config this)) = true
                         \/ exists sk, truthyString (sortKey (fo_config this)) = Some sk
                                       /\ includes reservedFieldNames sk = true)).
Proof.
  split; [|split].
  - eexists. split; [reflexivity|]. split; reflexivity.
  - intros this Hnew. apply FailOpen_new_inr in Hnew as (Hcfg & Hretry & _).
    unfold dist_FailOpen_new. destruct this as [c r]. cbn in *. now subst.
  - intros e He. eexists. split; [reflexivity|]. cbn [fo_config].
    destruct (proj1 (FailOpen_new_throws config) (ex_intro _ e He))
      as [Hin | (sk & Hsk & Hin)].
    + left. now apply includes_In.
    + right. exists sk. split; [exact Hsk | now apply includes_In].
Qed.

(** X3: [getMsForLease] throws exactly on a unit that is not one of the five
    names.  On each of them it multiplies by the unit's number of
    milliseconds: 1, 1000, 60000, 3600000 and 86400000, for every duration
    whose product is a safe integer, where the code's multiplications are
    exact.  Among such results it keeps zero, sign and strict order of
    durations, and the duration is a safe integer as well. *)
Theorem X3_getMsForLease_units unit :
  ((forall time, getMsForLease time unit = None) <->
   ~ In unit ["milliseconds"; "seconds"; "minutes"; "hours"; "days"])
  /\ (forall time,
        (isSafeInteger time = true ->
         getMsForLease time "milliseconds" = Some time)
        /\ (isSafeInteger (time * 1000) = true ->
            getMsForLease time "seconds" = Some (time * 1000))
        /\ (isSafeInteger (time * 60000) = true ->
            getMsForLease time "minutes" = Some (time * 60000))
        /\ (isSafeInteger (time * 3600000) = true ->
            getMsForLease time "hours" = Some (time * 3600000))
        /\ (isSafeInteger (time * 86400000) = true ->
            getMsForLease time "days" = Some (time * 86400000)))
  /\ (forall time ms,
        getMsForLease time unit = Some ms -> isSafeInteger ms = true ->
        isSafeInteger time = true
        /\ (time = 0 <-> ms = 0) /\ (0 < time <-> 0 < ms))
  /\ (forall t1 t2 m1 m2,
        getMsForLease t1 unit = Some m1 -> getMsForLease t2 unit = Some m2 ->
        isSafeInteger m1 = true -> isSafeInteger m2 = true ->
        (t1 < t2 <-> m1 < m2))
  /\ getMsForLease 10 "seconds" = Some 10000
  /\ getMsForLease 2 "days" = Some 172800000.
Proof.
  split; [|split; [|split; [|split; [|split; reflexivity]]]].
  - unfold getMsForLease. split.
    + intros H Hin. specialize (H 0). simpl in Hin.
      destruct Hin as [<- | [<- | [<- | [<- | [<- | []]]]]]; discriminate H.
    + intros Hnot time.
      repeat match goal with
             | |- context [String.eqb unit ?s] =>
                 destruct (String.eqb_spec unit s) as [-> | _];
                 [exfalso; apply Hnot; simpl; auto 6|]
             end.
      reflexivity.
  - intros time. unfold getMsForLease. cbn.
    repeat split; intros _; f_equal; lia.
  - intros time ms Hms Hsafe. unfold isSafeInteger, MAX_SAFE_INTEGER in *.
    apply andb_true_iff in Hsafe as [Hlo Hhi].
    apply Z.leb_le in Hlo, Hhi. cbn in Hlo, Hhi.
    revert Hms. unfold getMsForLease.
    repeat match goal with
           | |- context [String.eqb unit ?s] => destruct (String.eqb unit s)
           end;
      intros [= <-]; try discriminate;
      (split; [apply andb_true_iff; split; apply Z.leb_le; cbn; lia | lia]).
  - intros t1 t2 m1 m2. unfold getMsForLease.
    repeat match goal with
           | |- context [String.eqb unit ?s] => destruct (String.eqb unit s)
           end;
      intros [= <-] [= <-] _ _; try discriminate; lia.
Qed.

(** ** Acquisition as a whole *)

Lemma acquireCount_app f l1 l2 :
  acquireCount f (l1 ++ l2) = (acquireCount f l1 + acquireCount f l2)%nat.
Proof. unfold acquireCount. now rewrite filter_app, length_app. Qed.

Lemma acquireRun_Settled this evs p effs :
  acquireRun this Settled evs = Some (p, effs) -> evs = [] /\ p = Settled /\ effs = [].
Proof.
  destruct evs as [|[ev clock] evs]; simpl.
  - intros [= <- <-]. auto.
  - destruct ev; discriminate.
Qed.

Lemma acquireLock_cases this host randomUUID id :
  acquireLock this host randomUUID id
  = (Settled, [Callback (Some (Error "Lock ID is missing required sortKey value" None)) None])
  \/ exists dataBag,
       acquireLock this host randomUUID id
       = (AwaitGet dataBag, [SendGet (checkForExistingLock_params this dataBag)])
       /\ bag_retryCount dataBag = fo_retryCount this
       /\ bag_recordVersionNumber dataBag = randomUUID.
Proof.
  unfold acquireLock.
  destruct id as [v|o];
    match goal with
    | |- context [bool_decide ?P] => destruct (bool_decide P)
    end;
    first [now left | right; eexists; split; [reflexivity | split; reflexivity]].
Qed.

Lemma acquireStep_budget this p ev clock p' effs :
  acquireStep this p ev clock = Some (p', effs) ->
  (acquireCount isSendPut effs + writesLeft p' <= writesLeft p)%nat
  /\ (acquireCount isSendGet effs + readsLeft p' <= readsLeft p)%nat
  /\ (acquireCount isAcquireCallback effs + callbacksLeft p' = callbacksLeft p)%nat.
Proof.
  destruct p as [d | d lock | d |], ev as [error item | | error];
    try discriminate; cbn [acquireStep]; intros H; apply (inj Some) in H; revert H.
  - unfold checkForExistingLock_done, acquireNewLock, tryAcquireLock.
    destruct error as [e|]; [|destruct item as [lock|]];
      intros [= <- <-]; simpl; lia.
  - unfold acquireExistingLock, tryAcquireLock. intros [= <- <-]. simpl. lia.
  - unfold tryAcquireLock_done, checkForExistingLock.
    destruct error as [e|]; [destruct (isConditionalCheckFailed e)|];
      [destruct (Z.ltb_spec 0 (bag_retryCount d))| |];
      intros [= <- <-]; simpl; lia.
Qed.

Lemma acquireRun_budget this evs : forall p p' effs,
  acquireRun this p evs = Some (p', effs) ->
  (acquireCount isSendPut effs + writesLeft p' <= writesLeft p)%nat
  /\ (acquireCount isSendGet effs + readsLeft p' <= readsLeft p)%nat
  /\ (acquireCount isAcquireCallback effs + callbacksLeft p' = callbacksLeft p)%nat.
Proof.
  induction evs as [|[ev clock] evs IH]; intros p p' effs; simpl.
  - intros [= <- <-]. simpl. lia.
  - destruct (acquireStep this p ev clock) as [[p1 effs1]|] eqn:Hstep; [|discriminate].
    destruct (acquireRun this p1 evs) as [[p2 effs2]|] eqn:Hrun; [|discriminate].
    intros [= <- <-]. rewrite !acquireCount_app.
    destruct (acquireStep_budget _ _ _ _ _ _ Hstep) as (? & ? & ?).
    destruct (IH _ _ _ Hrun) as (? & ? & ?). lia.
Qed.

(** X4: whatever the store answers and however long the run, an acquisition
    started by [acquireLock] sends at most [retryCount + 1] reads and at most
    [retryCount + 1] conditional writes (one of each for a negative count),
    and calls back at most once.  It has called back exactly when it is
    settled, and a settled acquisition reacts to no further event. *)
Theorem X4_acquisition_bounded_work this host randomUUID id p0 effs0 evs p effs :
  acquireLock this host randomUUID id = (p0, effs0) ->
  acquireRun this p0 evs = Some (p, effs) ->
  (acquireCount isSendGet (effs0 ++ effs) <= S (Z.to_nat (fo_retryCount this)))%nat
  /\ (acquireCount isSendPut (effs0 ++ effs) <= S (Z.to_nat (fo_retryCount this)))%nat
  /\ (acquireCount isAcquireCallback (effs0 ++ effs) <= 1)%nat
  /\ (acquireCount isAcquireCallback (effs0 ++ effs) = 1%nat <-> p = Settled)
  /\ (p = Settled -> forall ev clock, acquireStep this p ev clock = None).
Proof.
  intros Hacq Hrun. rewrite !acquireCount_app.
  assert (Hlast : p = Settled -> forall ev clock, acquireStep this p ev clock = None).
  { intros -> ev clock. now destruct ev. }
  destruct (acquireLock_cases this host randomUUID id) as [H | (d & H & Hretry & _)];
    rewrite H in Hacq; injection Hacq as <- <-.
  - apply acquireRun_Settled in Hrun as (-> & -> & ->).
    unfold acquireCount. simpl.
    repeat split; auto; lia.
  - destruct (acquireRun_budget _ _ _ _ _ Hrun) as (Hw & Hr & Hc).
    simpl in Hw, Hr, Hc. rewrite Hretry in *.
    unfold acquireCount in *. simpl.
    repeat split; try lia; auto.
    + intros Hone. destruct p; simpl in Hc; try lia. reflexivity.
    + intros ->. simpl in Hc. lia.
Qed.

(** A client with one retry: a read and a failed insert, a read, a wait and
    a failed overwrite. *)
Lemma X4_acquisition_bounded_work_witness :
  exists p effs,
    acquireRun sample_trusting_client
      (AwaitGet (setRetryCount sample_bag 1))
      (failedRound conditional_failure sample_clock None
       ++ failedRound conditional_failure sample_clock (Some sample_record))
    = Some (p, effs)
    /\ (acquireCount isSendPut
          ([SendGet (checkForExistingLock_params sample_trusting_client
                       (setRetryCount sample_bag 1))] ++ effs) <= 2)%nat
    /\ p = Settled.
Proof.
  assert (Hrun : exists effs,
             acquireRun sample_trusting_client (AwaitGet (setRetryCount sample_bag 1))
               (failedRound conditional_failure sample_clock None
                ++ failedRound conditional_failure sample_clock (Some sample_record))
             = Some (Settled, effs)).
  { eexists. vm_compute. reflexivity. }
  destruct Hrun as [effs Hrun]. exists Settled, effs. split; [exact Hrun|].
  destruct (X4_acquisition_bounded_work sample_trusting_client sample_host "B"
              (IdScalar (JString "resource"))
              (AwaitGet (setRetryCount sample_bag 1))
              [SendGet (checkForExistingLock_params sample_trusting_client
                          (setRetryCount sample_bag 1))]
              _ Settled effs eq_refl Hrun)
    as (_ & Hputs & _ & _ & _).
  split; [exact Hputs | reflexivity].
Defined.

Lemma exhausted_counts this evs : forall p0 d p effs m c e,
  bagOf p0 = Some d -> 0 <= bag_retryCount d ->
  forallb storageEvent evs = true ->
  acquireRun this p0 evs = Some (p, effs) ->
  Callback (Some (FailOpenError m c e)) None ∈ effs ->
  p = Settled /\ m = "Failed to acquire lock." /\ c = "FailedToAcquireLock"
  /\ isConditionalCheckFailed e = true
  /\ acquireCount isSendPut effs = writesLeft p0
  /\ acquireCount isSendGet effs = readsLeft p0.
Proof.
  induction evs as [|[ev clock] evs IH]; intros p0 d p effs m c e Hbag Hpos Hplain; simpl.
  - intros [= <- <-] Hin. apply elem_of_nil in Hin. contradiction.
  - cbn [forallb] in Hplain. apply andb_true_iff in Hplain as [Hev Hplain].
    destruct (acquireStep this p0 ev clock) as [[p1 effs1]|] eqn:Hstep; [|discriminate].
    destruct (acquireRun this p1 evs) as [[p2 effs2]|] eqn:Hrun; [|discriminate].
    intros [= <- <-] Hin. rewrite !acquireCount_app.
    assert (Hnext : forall d1, bagOf p1 = Some d1 -> 0 <= bag_retryCount d1 ->
              Callback (Some (FailOpenError m c e)) None ∈ effs2 ->
              (acquireCount isSendPut effs1 + writesLeft p1)%nat = writesLeft p0 ->
              (acquireCount isSendGet effs1 + readsLeft p1)%nat = readsLeft p0 ->
              p2 = Settled /\ m = "Failed to acquire lock." /\ c = "FailedToAcquireLock"
              /\ isConditionalCheckFailed e = true
              /\ (acquireCount isSendPut effs1 + acquireCount isSendPut effs2)%nat
                 = writesLeft p0
              /\ (acquireCount isSendGet effs1 + acquireCount isSendGet effs2)%nat
                 = readsLeft p0).
    { intros d1 Hb1 Hp1 Hin2 Hw Hr.
      destruct (IH _ _ _ _ _ _ _ Hb1 Hp1 Hplain Hrun Hin2) as (? & ? & ? & ? & Hw2 & Hr2).
      repeat split; auto; lia. }
    assert (Hdone : p1 = Settled ->
              Callback (Some (FailOpenError m c e)) None ∈ effs1 ->
              m = "Failed to acquire lock." /\ c = "FailedToAcquireLock"
              /\ isConditionalCheckFailed e = true
              /\ acquireCount isSendPut effs1 = writesLeft p0
              /\ acquireCount isSendGet effs1 = readsLeft p0 ->
              p2 = Settled /\ m = "Failed to acquire lock." /\ c = "FailedToAcquireLock"
              /\ isConditionalCheckFailed e = true
              /\ (acquireCount isSendPut effs1 + acquireCount isSendPut effs2)%nat
                 = writesLeft p0
              /\ (acquireCount isSendGet effs1 + acquireCount isSendGet effs2)%nat
                 = readsLeft p0).
    { intros -> _ (? & ? & ? & Hw & Hr).
      apply acquireRun_Settled in Hrun as (_ & -> & ->).
      rewrite Hw, Hr. unfold acquireCount. simpl.
      repeat split; auto; lia. }
    apply elem_of_app in Hin.
    destruct p0 as [d0 | d0 lock | d0 |], ev as [error item | | error];
      try discriminate; cbn [acquireStep] in Hstep; apply (inj Some) in Hstep;
      cbn [bagOf] in Hbag; injection Hbag as ->; cbn [storageEvent fst] in Hev.
    + unfold checkForExistingLock_done, acquireNewLock, tryAcquireLock in Hstep.
      destruct error as [x|]; [|destruct item as [lock|]];
        injection Hstep as <- <-.
      * destruct Hin as [Hin | Hin].
        -- apply list_elem_of_singleton in Hin. injection Hin as <-. discriminate Hev.
        -- apply acquireRun_Settled in Hrun as (_ & _ & ->).
           apply elem_of_nil in Hin. contradiction.
      * destruct Hin as [Hin | Hin];
          [apply list_elem_of_singleton in Hin; discriminate Hin|].
        apply (Hnext d eq_refl Hpos Hin); reflexivity.
      * destruct Hin as [Hin | Hin];
          [apply list_elem_of_singleton in Hin; discriminate Hin|].
        apply (Hnext d eq_refl Hpos Hin); reflexivity.
    + unfold acquireExistingLock, tryAcquireLock in Hstep. injection Hstep as <- <-.
      destruct Hin as [Hin | Hin];
        [apply list_elem_of_singleton in Hin; discriminate Hin|].
      apply (Hnext d eq_refl Hpos Hin); reflexivity.
    + unfold tryAcquireLock_done, checkForExistingLock in Hstep.
      destruct error as [x|]; [destruct (isConditionalCheckFailed x) eqn:Hx|];
        [destruct (Z.ltb_spec 0 (bag_retryCount d))| |];
        injection Hstep as <- <-.
      * destruct Hin as [Hin | Hin];
          [apply list_elem_of_singleton in Hin; discriminate Hin|].
        apply (Hnext _ eq_refl); [simpl; lia | exact Hin | ..];
          unfold acquireCount; simpl; lia.
      * destruct Hin as [Hin | Hin].
        -- apply Hdone; [reflexivity | exact Hin |].
           apply list_elem_of_singleton in Hin. injection Hin as -> -> ->.
           unfold acquireCount. simpl. repeat split; auto; lia.
        -- apply acquireRun_Settled in Hrun as (_ & _ & ->).
           apply elem_of_nil in Hin. contradiction.
      * destruct Hin as [Hin | Hin].
        -- apply list_elem_of_singleton in Hin. injection Hin as <-. discriminate Hev.
        -- apply acquireRun_Settled in Hrun as (_ & _ & ->).
           apply elem_of_nil in Hin. contradiction.
      * destruct Hin as [Hin | Hin];
          [apply list_elem_of_singleton in Hin; discriminate Hin|].
        apply acquireRun_Settled in Hrun as (_ & _ & ->).
        apply elem_of_nil in Hin. contradiction.
Qed.

(** X5: the store's errors being its own, an acquisition reports
    [FailOpenError] only when its budget is spent: the error carries the
    fixed message and code and wraps a [ConditionalCheckFailedException], the
    acquisition is settled, and by then exactly [retryCount + 1] conditional
    writes were sent and the record was read again exactly [retryCount]
    times. *)
Theorem X5_exhaustion_only_when_budget_spent this dataBag evs p effs m c e :
  0 <= bag_retryCount dataBag ->
  forallb storageEvent evs = true ->
  acquireRun this (AwaitGet dataBag) evs = Some (p, effs) ->
  Callback (Some (FailOpenError m c e)) None ∈ effs ->
  p = Settled /\ m = "Failed to acquire lock." /\ c = "FailedToAcquireLock"
  /\ isConditionalCheckFailed e = true
  /\ acquireCount isSendPut effs = S (Z.to_nat (bag_retryCount dataBag))
  /\ acquireCount isSendGet effs = Z.to_nat (bag_retryCount dataBag).
Proof.
  intros Hpos Hplain Hrun Hin.
  exact (exhausted_counts this evs (AwaitGet dataBag) dataBag p effs m c e
           eq_refl Hpos Hplain Hrun Hin).
Qed.

(** The run of a client with no retry against a record that stays. *)
Lemma X5_exhaustion_only_when_budget_spent_witness :
  exists effs,
    acquireRun sample_client (AwaitGet sample_bag)
      (failedRound conditional_failure sample_clock (Some sample_record))
    = Some (Settled, effs)
    /\ acquireCount isSendPut effs = 1%nat
    /\ acquireCount isSendGet effs = 0%nat.
Proof.
  eexists. split; [vm_compute; reflexivity|].
  destruct (X5_exhaustion_only_when_budget_spent sample_client sample_bag
              (failedRound conditional_failure sample_clock (Some sample_record))
              Settled _ "Failed to acquire lock." "FailedToAcquireLock"
              conditional_failure ltac:(discriminate) eq_refl
              ltac:(vm_compute; reflexivity)
              ltac:(apply list_elem_of_In; right; right; left; reflexivity))
    as (_ & _ & _ & _ & Hputs & Hgets).
  split; [exact Hputs | exact Hgets].
Defined.

Lemma sameIdentity_params this d d' :
  sameIdentity d d' ->
  checkForExistingLock_params this d' = checkForExistingLock_params this d
  /\ (forall clock, acquireItem this d' clock = acquireItem this d clock)
  /\ newLockData this d' = newLockData this d.
Proof.
  unfold sameIdentity. destruct d, d'. cbn. intros [= -> -> -> ->].
  repeat split.
Qed.

Lemma acquireRun_identity this d evs : forall p0 p effs,
  (forall d', bagOf p0 = Some d' -> sameIdentity d d') ->
  acquireRun this p0 evs = Some (p, effs) ->
  Forall (carriesIdentity this d) effs.
Proof.
  induction evs as [|[ev clock] evs IH]; intros p0 p effs Hsame; simpl.
  - intros [= <- <-]. constructor.
  - destruct (acquireStep this p0 ev clock) as [[p1 effs1]|] eqn:Hstep; [|discriminate].
    destruct (acquireRun this p1 evs) as [[p2 effs2]|] eqn:Hrun; [|discriminate].
    intros [= <- <-]. apply Forall_app.
    assert (Hgoal : Forall (carriesIdentity this d) effs1
                    /\ forall d', bagOf p1 = Some d' -> sameIdentity d d').
    { destruct p0 as [d0 | d0 lock | d0 |], ev as [error item | | error];
        try discriminate; cbn [acquireStep] in Hstep; apply (inj Some) in Hstep;
        destruct (sameIdentity_params this d d0 (Hsame d0 eq_refl)) as (Hget & Hitem & Hlock);
        pose proof (Hsame d0 eq_refl) as Hd0.
      - unfold checkForExistingLock_done, acquireNewLock, tryAcquireLock in Hstep.
        destruct error as [x|]; [|destruct item as [lock|]];
          injection Hstep as <- <-; (split; [repeat constructor|]);
          try (intros d' [= <-]; exact Hd0); try discriminate.
        exists clock. apply Hitem.
      - unfold acquireExistingLock, tryAcquireLock in Hstep.
        injection Hstep as <- <-. split.
        + repeat constructor. exists clock. apply Hitem.
        + intros d' [= <-]. exact Hd0.
      - unfold tryAcquireLock_done, checkForExistingLock in Hstep.
        destruct error as [x|]; [destruct (isConditionalCheckFailed x)|];
          [destruct (0 <? bag_retryCount d0)| |];
          injection Hstep as <- <-; (split; [repeat constructor|]);
          try discriminate; auto.
        intros d' [= <-]. unfold sameIdentity in *. rewrite <- Hd0.
        now destruct d0. }
    destruct Hgoal as [H1 Hnext]. split; [exact H1|].
    exact (IH _ _ _ Hnext Hrun).
Qed.

Lemma acquireItem_identity config this dataBag clock :
  FailOpen_new config = inr this ->
  acquireItem this dataBag clock !! "recordVersionNumber"
  = Some (JString (bag_recordVersionNumber dataBag))
  /\ acquireItem this dataBag clock !! "ownerName" = Some (JString (bag_ownerName dataBag)).
Proof.
  intros Hnew. pose proof (sortKey_property_not_reserved _ _ Hnew) as Hkey.
  apply not_reserved_neq in Hkey as (_ & _ & Ho & Hr).
  apply FailOpen_new_inr in Hnew as (Hcfg & _).
  assert (Hsort : forall item k,
             k <> default "undefined" (sortKey config) ->
             withSortID (sortKey config) (bag_sortID dataBag) item !! k = item !! k).
  { intros item k Hk. unfold withSortID. destruct (truthy _); [|reflexivity].
    apply lookup_insert_ne. congruence. }
  unfold acquireItem. rewrite Hcfg.
  rewrite !Hsort by congruence. rewrite !withAcquiredTime_other by discriminate.
  unfold baseItem. split.
  - rewrite lookup_insert_ne by discriminate. apply lookup_insert_eq.
  - rewrite !lookup_insert_ne by discriminate. apply lookup_insert_eq.
Qed.

(** X6: an acquisition keeps its identity across retries.  Every read of a
    run is the first read again, with the same key and strong consistency;
    every conditional write carries the token and owner name the acquisition
    started with; and a lock is handed to the callback only with no error,
    carrying that same token. *)
Theorem X6_identity_kept_across_retries config this dataBag evs p effs :
  FailOpen_new config = inr this ->
  acquireRun this (AwaitGet dataBag) evs = Some (p, effs) ->
  (forall params, SendGet params ∈ effs ->
     params = checkForExistingLock_params this dataBag
     /\ get_ConsistentRead params = true)
  /\ (forall params, SendPut params ∈ effs ->
        put_TableName params = lockTable config
        /\ put_Item params !! "recordVersionNumber"
           = Some (JString (bag_recordVersionNumber dataBag))
        /\ put_Item params !! "ownerName" = Some (JString (bag_ownerName dataBag)))
  /\ (forall error data, Callback error (Some data) ∈ effs ->
        error = None
        /\ data_recordVersionNumber data = bag_recordVersionNumber dataBag
        /\ data_partitionID data = bag_partitionID dataBag
        /\ data_sortID data = bag_sortID dataBag).
Proof.
  intros Hnew Hrun.
  assert (Hall : Forall (carriesIdentity this dataBag) effs).
  { apply (acquireRun_identity this dataBag evs (AwaitGet dataBag) p effs); [|exact Hrun].
    intros d' [= <-]. reflexivity. }
  rewrite Forall_forall in Hall.
  pose proof (proj1 (FailOpen_new_inr _ _ Hnew)) as Hcfg.
  split; [|split].
  - intros params Hin. specialize (Hall _ Hin). cbn in Hall. subst params. auto.
  - intros params Hin. destruct (Hall _ Hin) as (Htable & clock & Hitem).
    rewrite Htable, Hitem, Hcfg. split; [reflexivity|].
    exact (acquireItem_identity _ _ dataBag clock Hnew).
  - intros error data Hin. destruct (Hall _ Hin) as [-> ->]. auto.
Qed.

(** A contended round with one retry left, then a successful insert. *)
Lemma X6_identity_kept_across_retries_witness :
  exists effs,
    acquireRun sample_trusting_client (AwaitGet (setRetryCount sample_bag 1))
      (failedRound conditional_failure sample_clock (Some sample_record)
       ++ [(GetDone None None, sample_clock); (PutDone None, sample_clock)])
    = Some (Settled, effs)
    /\ forall params, SendPut params ∈ effs ->
         put_Item params !! "recordVersionNumber" = Some (JString "B").
Proof.
  assert (Hrun : exists effs,
             acquireRun sample_trusting_client (AwaitGet (setRetryCount sample_bag 1))
               (failedRound conditional_failure sample_clock (Some sample_record)
                ++ [(GetDone None None, sample_clock); (PutDone None, sample_clock)])
             = Some (Settled, effs)).
  { eexists. vm_compute. reflexivity. }
  destruct Hrun as [effs Hrun]. exists effs. split; [exact Hrun|].
  intros params Hin.
  destruct (X6_identity_kept_across_retries (fo_config sample_trusting_client)
              sample_trusting_client (setRetryCount sample_bag 1)
              (failedRound conditional_failure sample_clock (Some sample_record)
               ++ [(GetDone None None, sample_clock); (PutDone None, sample_clock)])
              Settled effs eq_refl Hrun) as (_ & Hput & _).
  exact (proj1 (proj2 (Hput params Hin))).
Defined.

(** X7: what [acquireLock] accepts.  With a sort key configured, a scalar id
    and an object id whose sort-key property is missing or [undefined] are
    rejected by the callback with nothing sent to the store; an object id
    with any other value there is accepted and read under both key
    attributes.  With no sort key configured every id is accepted, an object
    without the partition-key property included, which is read under
    [undefined].  The owner name of the acquisition is the configured one,
    or the package and host identity when that is empty. *)
Theorem X7_acquireLock_validation this host randomUUID :
  let config := fo_config this in
  let rejected :=
    (Settled,
     [Callback (Some (Error "Lock ID is missing required sortKey value" None)) None]) in
  (forall v sk, truthyString (sortKey config) = Some sk ->
     acquireLock this host randomUUID (IdScalar v) = rejected)
  /\ (forall o sk, truthyString (sortKey config) = Some sk ->
        o !! sk = None \/ o !! sk = Some JUndefined ->
        acquireLock this host randomUUID (IdObject o) = rejected)
  /\ (forall o sk v, truthyString (sortKey config) = Some sk ->
        o !! sk = Some v -> v <> JUndefined ->
        exists d,
          acquireLock this host randomUUID (IdObject o)
          = (AwaitGet d, [SendGet (checkForExistingLock_params this d)])
          /\ bag_sortID d = v
          /\ get_Key (checkForExistingLock_params this d)
             = <[ sk := v ]> {[ partitionKey config := prop o (partitionKey config) ]})
  /\ (forall id, truthyString (sortKey config) = None ->
        exists d,
          acquireLock this host randomUUID id
          = (AwaitGet d, [SendGet (checkForExistingLock_params this d)])
          /\ bag_partitionID d
             = match id with
               | IdScalar v => v
               | IdObject o => prop o (partitionKey config)
               end
          /\ get_Key (checkForExistingLock_params this d)
             = {[ partitionKey config := bag_partitionID d ]})
  /\ (forall id d effs,
        acquireLock this host randomUUID id = (AwaitGet d, effs) ->
        bag_retryCount d = fo_retryCount this
        /\ bag_recordVersionNumber d = randomUUID
        /\ (ownerName config <> "" -> bag_ownerName d = ownerName config)
        /\ (ownerName config = "" ->
            bag_ownerName d
            = "@spiffcommerce/dynamodb-lock-client@1.0.0_" +:+ username host
              +:+ "@" +:+ hostname host)).
Proof.
  intros config rejected. split; [|split; [|split; [|split]]].
  - intros v sk Hsk. unfold acquireLock. fold config. rewrite Hsk.
    rewrite bool_decide_eq_true_2 by (split; [eauto | reflexivity]). reflexivity.
  - intros o sk Hsk Ho. destruct (truthyString_Some _ _ Hsk) as [Hsome _].
    unfold acquireLock. fold config. rewrite Hsk, Hsome. cbn [default from_option id].
    assert (prop o sk = JUndefined) as ->.
    { unfold prop. destruct Ho as [-> | ->]; reflexivity. }
    rewrite bool_decide_eq_true_2 by (split; [eauto | reflexivity]). reflexivity.
  - intros o sk v Hsk Ho Hv. destruct (truthyString_Some _ _ Hsk) as [Hsome _].
    unfold acquireLock. fold config. rewrite Hsk, Hsome. cbn [default from_option id].
    assert (prop o sk = v) as -> by (unfold prop; now rewrite Ho).
    rewrite bool_decide_eq_false_2 by (intros [_ E]; contradiction).
    eexists. split; [reflexivity|]. split; [reflexivity|].
    unfold checkForExistingLock_params, buildKey. cbn [get_Key bag_partitionID bag_sortID].
    fold config. now rewrite Hsk.
  - intros id Hnone. unfold acquireLock. fold config. rewrite Hnone.
    assert (Hno : forall x : JsValue,
               bool_decide (is_Some (@None string) /\ x = JUndefined) = false).
    { intros x. apply bool_decide_eq_false_2. intros [[? E] _]. discriminate E. }
    destruct id as [v|o]; rewrite Hno;
      (eexists; split; [reflexivity|]; split; [reflexivity|]);
      unfold checkForExistingLock_params, buildKey;
      cbn [get_Key bag_partitionID bag_sortID]; fold config; now rewrite Hnone.
  - intros id d effs Hacq. unfold acquireLock in Hacq. fold config in Hacq.
    assert (Hd : d = {| bag_partitionID := bag_partitionID d;
                        bag_recordVersionNumber := randomUUID;
                        bag_sortID := bag_sortID d;
                        bag_ownerName :=
                          if String.eqb (ownerName config) "" then
                            pkg_name +:+ "@" +:+ pkg_version +:+ "_" +:+ username host
                            +:+ "@" +:+ hostname host
                          else ownerName config;
                        bag_retryCount := fo_retryCount this |}).
    { destruct id as [v|o];
        match type of Hacq with
        | (if ?b then _ else _) = _ => destruct b; [discriminate Hacq|]
        end;
        unfold checkForExistingLock in Hacq; injection Hacq as <- _; reflexivity. }
    rewrite Hd. cbn [bag_retryCount bag_recordVersionNumber bag_ownerName].
    split; [reflexivity|]. split; [reflexivity|]. split.
    + intros Hne. now apply String.eqb_neq in Hne as ->.
    + intros ->. reflexivity.
Qed.

(** ** What is written and what is read back *)

Lemma orDefault_idem x d : d <> 0 -> orDefault (Some (orDefault x d)) d = orDefault x d.
Proof.
  intros Hd. pose proof (orDefault_nonzero x d Hd) as Hnz.
  unfold orDefault at 1. now destruct (Z.eqb_spec (orDefault x d) 0).
Qed.

Lemma is_Some_insert (m : gmap string JsValue) i x k :
  is_Some (m !! k) -> is_Some (<[ i := x ]> m !! k).
Proof.
  intros H. destruct (decide (i = k)) as [->|Hne].
  - rewrite lookup_insert_eq. eauto.
  - now rewrite lookup_insert_ne.
Qed.

Lemma acquireItem_has_partitionKey this dataBag clock :
  is_Some (acquireItem this dataBag clock !! partitionKey (fo_config this)).
Proof.
  unfold acquireItem, withSortID, withAcquiredTime, baseItem.
  destruct (truthy _), (trustLocalTime _);
    repeat first [rewrite lookup_singleton_eq; eauto | apply is_Some_insert].
Qed.

(** The item of a renewal, attribute by attribute, for a lock that an
    acquisition of a constructed client handed out. *)
Lemma refreshItem_lookups config this dataBag lock g clock :
  FailOpen_new config = inr this ->
  lock_config lock = newLockData this dataBag ->
  let item := put_Item (refreshLock_params lock g clock) in
  item !! "recordVersionNumber" = Some (JString g)
  /\ item !! "leaseDuration"
     = Some (JString (toString (leaseMs (orDefault (Some (leaseDuration config)) 10000)
                                  (leaseUnit config))))
  /\ item !! "lockAcquiredTimeUnixMs"
     = (if trustLocalTime config then Some (JNumber (getTime clock)) else None)
  /\ is_Some (item !! partitionKey config)
  /\ (forall sk, truthyString (sortKey config) = Some sk ->
        item !! sk = Some (bag_sortID dataBag)).
Proof.
  intros Hnew Hlock item.
  pose proof (FailOpen_new_inr _ _ Hnew) as (Hcfg & _ & Hpk & Hsk).
  apply not_reserved_neq in Hpk as (Hpl & Hpa & _ & Hpr).
  assert (Hitem : item
            = match truthyString (sortKey config) with
              | Some sk =>
                  <[ sk := bag_sortID dataBag ]>
                    (withAcquiredTime (trustLocalTime config) clock
                       (baseItem (partitionKey config) (bag_partitionID dataBag)
                          (orDefault (Some (leaseDuration config)) 10000)
                          (leaseUnit config) (bag_ownerName dataBag) g clock))
              | None =>
                  withAcquiredTime (trustLocalTime config) clock
                    (baseItem (partitionKey config) (bag_partitionID dataBag)
                       (orDefault (Some (leaseDuration config)) 10000)
                       (leaseUnit config) (bag_ownerName dataBag) g clock)
              end).
  { unfold item, refreshLock_params. cbn [put_Item]. rewrite Hlock.
    unfold newLockData. cbn. now rewrite Hcfg. }
  assert (Hskip : forall k,
             (forall sk, truthyString (sortKey config) = Some sk -> k <> sk) ->
             item !! k
             = withAcquiredTime (trustLocalTime config) clock
                 (baseItem (partitionKey config) (bag_partitionID dataBag)
                    (orDefault (Some (leaseDuration config)) 10000)
                    (leaseUnit config) (bag_ownerName dataBag) g clock) !! k).
  { intros k Hk. rewrite Hitem. destruct (truthyString (sortKey config)) as [sk|];
      [|reflexivity]. apply lookup_insert_ne. specialize (Hk sk eq_refl). congruence. }
  assert (Hres : forall k, includes reservedFieldNames k = true ->
             forall sk, truthyString (sortKey config) = Some sk -> k <> sk).
  { intros k Hk sk Hs ->. rewrite (Hsk sk Hs) in Hk. discriminate. }
  split; [|split; [|split; [|split]]].
  - rewrite Hskip by (apply Hres; reflexivity).
    rewrite withAcquiredTime_other by discriminate.
    unfold baseItem. rewrite lookup_insert_ne by discriminate. apply lookup_insert_eq.
  - rewrite Hskip by (apply Hres; reflexivity).
    rewrite withAcquiredTime_other by discriminate.
    unfold baseItem. rewrite !lookup_insert_ne by discriminate.
    rewrite lookup_insert_eq, orDefault_idem by discriminate. reflexivity.
  - rewrite Hskip by (apply Hres; reflexivity).
    unfold withAcquiredTime. destruct (trustLocalTime config).
    + apply lookup_insert_eq.
    + apply baseItem_other; try discriminate. congruence.
  - rewrite Hitem. unfold withAcquiredTime, baseItem.
    destruct (truthyString (sortKey config)), (trustLocalTime config);
      repeat first [rewrite lookup_singleton_eq; eauto | apply is_Some_insert].
  - intros sk Hs. rewrite Hitem, Hs. apply lookup_insert_eq.
Qed.

Lemma acquireItem_no_acquired_time config this dataBag clock :
  FailOpen_new config = inr this ->
  trustLocalTime config = false ->
  acquireItem this dataBag clock !! "lockAcquiredTimeUnixMs" = None.
Proof.
  intros Hnew Htrust. pose proof (sortKey_property_not_reserved _ _ Hnew) as Hkey.
  apply not_reserved_neq in Hkey as (_ & Ha & _ & _).
  apply FailOpen_new_inr in Hnew as (Hcfg & _ & Hpk & _).
  apply not_reserved_neq in Hpk as (_ & Hpa & _ & _).
  unfold acquireItem, withSortID, withAcquiredTime. rewrite Hcfg, Htrust.
  destruct (truthy _).
  - rewrite lookup_insert_ne by congruence.
    apply baseItem_other; try discriminate. congruence.
  - apply baseItem_other; try discriminate. congruence.
Qed.

(** X8: the lease duration survives the round trip through the table, for a
    configured lease that is a safe integer in milliseconds, so that the
    code computes it exactly and prints it in decimal digits.  A record
    written by an acquisition or by a renewal of a constructed client stores
    the configured duration in milliseconds (10000 units when it is 0),
    never zero, as that decimal string, and a reader that does not trust its
    clock computes exactly that timeout for its timer.  When writer and
    reader both trust their clocks, and the difference of the two times and
    the remainder are safe integers, the reader's timeout is what is left of
    the lease since the write.  A reader that trusts its clock while the
    writer did not finds no acquisition time and computes [NaN]. *)
Theorem X8_lease_round_trip config writer dataBag lock reader written g now :
  FailOpen_new config = inr writer ->
  lock_config lock = newLockData writer dataBag ->
  isSafeInteger
    (leaseMs (orDefault (Some (leaseDuration config)) 10000) (leaseUnit config)) = true ->
  let lease := leaseMs (orDefault (Some (leaseDuration config)) 10000) (leaseUnit config) in
  let acquired := put_Item (acquireNewLock_params writer dataBag written) in
  let renewed := put_Item (refreshLock_params lock g written) in
  lease <> 0
  /\ (forall observed,
        put_Item (acquireExistingLock_params writer dataBag observed written) = acquired)
  /\ acquired !! "leaseDuration" = Some (JString (toString lease))
  /\ renewed !! "leaseDuration" = Some (JString (toString lease))
  /\ (trustLocalTime (fo_config reader) = false ->
      existingLockTimeout reader acquired now = Some lease
      /\ existingLockTimeout reader renewed now = Some lease)
  /\ (trustLocalTime (fo_config reader) = true -> trustLocalTime config = true ->
      isSafeInteger (getTime written) = true ->
      isSafeInteger (getTime now) = true ->
      isSafeInteger (getTime now - getTime written) = true ->
      isSafeInteger (lease - (getTime now - getTime written)) = true ->
      existingLockTimeout reader acquired now
      = Some (Z.max 0 (lease - (getTime now - getTime written)))
      /\ existingLockTimeout reader renewed now
         = Some (Z.max 0 (lease - (getTime now - getTime written))))
  /\ (trustLocalTime (fo_config reader) = true -> trustLocalTime config = false ->
      existingLockTimeout reader acquired now = None
      /\ existingLockTimeout reader renewed now = None).
Proof.
  intros Hnew Hlock _ lease acquired renewed.
  assert (Hlease : lease <> 0).
  { apply leaseMs_nonzero, orDefault_nonzero. discriminate. }
  assert (Hnz : orDefault (Some lease) 10000 = lease).
  { unfold orDefault. now destruct (Z.eqb_spec lease 0). }
  destruct (acquireItem_reads_back _ _ dataBag written Hnew) as [Hal Hat].
  destruct (refreshItem_lookups _ _ dataBag lock g written Hnew Hlock)
    as (_ & Hrl & Hrt & _).
  assert (Hrl' : parseInt (prop renewed "leaseDuration") = Some lease).
  { unfold prop, renewed. rewrite Hrl. cbn [default from_option id].
    apply parseInt_toString. }
  assert (Hstored : acquired !! "leaseDuration" = Some (JString (toString lease))).
  { pose proof (sortKey_property_not_reserved _ _ Hnew) as Hkey.
    apply not_reserved_neq in Hkey as (Hl & _).
    pose proof (FailOpen_new_inr _ _ Hnew) as (Hcfg & _ & Hpk & _).
    apply not_reserved_neq in Hpk as (Hpl & _).
    unfold acquired, acquireNewLock_params. cbn [put_Item].
    unfold acquireItem, withSortID. rewrite Hcfg.
    destruct (truthy (bag_sortID dataBag));
      rewrite ?lookup_insert_ne by congruence;
      rewrite withAcquiredTime_other by discriminate;
      unfold baseItem; rewrite !lookup_insert_ne by discriminate;
      now rewrite lookup_insert_eq. }
  change (put_Item (acquireNewLock_params writer dataBag written))
    with (acquireItem writer dataBag written) in acquired.
  split; [exact Hlease|]. split; [reflexivity|].
  split; [exact Hstored|]. split; [exact Hrl|].
  unfold existingLockTimeout. subst acquired. rewrite Hal, Hrl'. fold lease.
  rewrite Hnz. split; [|split].
  - intros ->. split; reflexivity.
  - intros -> Htrust _ _ _ _. rewrite (Hat Htrust).
    unfold prop, renewed. rewrite Hrt, Htrust. cbn [default from_option id].
    rewrite parseInt_number. split; reflexivity.
  - intros -> Htrust. unfold prop at 1.
    rewrite (acquireItem_no_acquired_time _ _ dataBag written Hnew Htrust).
    unfold prop, renewed. rewrite Hrt, Htrust. split; reflexivity.
Qed.


Lemma X8_lease_round_trip_witness :
  FailOpen_new (fo_config sample_trusting_client) = inr sample_trusting_client
  /\ isSafeInteger (leaseMs 10 seconds) = true
  /\ existingLockTimeout sample_trusting_client
       (put_Item
          (refreshLock_params
             (fst (Lock_new (newLockData sample_trusting_client sample_bag) 0%nat))
             "C" sample_clock))
       {| getTime := 1700000007000; toISOString := "2023-11-14T22:13:27.000Z" |}
     = Some 7000.
Proof.
  split; [reflexivity|]. split; [reflexivity|].
  destruct (X8_lease_round_trip (fo_config sample_trusting_client)
              sample_trusting_client sample_bag
              (fst (Lock_new (newLockData sample_trusting_client sample_bag) 0%nat))
              sample_trusting_client sample_clock "C"
              {| getTime := 1700000007000; toISOString := "2023-11-14T22:13:27.000Z" |}
              eq_refl eq_refl eq_refl)
    as (_ & _ & _ & _ & _ & Htrust & _).
  exact (proj2 (Htrust eq_refl eq_refl eq_refl eq_refl eq_refl eq_refl)).
Defined.

(** ** The commands' placeholders *)

Lemma buildAttributeExistsExpression_render sk :
  buildAttributeExistsExpression sk = render (existsCondition sk).
Proof.
  unfold buildAttributeExistsExpression, existsCondition.
  now destruct (truthyString sk).
Qed.

Lemma dom_names pk sk :
  dom (buildExpressionAttributeNames pk sk)
  = match truthyString sk with
    | Some _ => ({[ "#partitionKey"; "#sortKey" ]} : gset string)
    | None => {[ "#partitionKey" ]}
    end.
Proof.
  unfold buildExpressionAttributeNames. destruct (truthyString sk).
  - rewrite dom_insert_L, dom_singleton_L. set_unfold. tauto.
  - now rewrite dom_singleton_L.
Qed.

(** X10: every command is sent with exactly the placeholders its condition
    uses.  The condition strings of the insert, the overwrite, the renewal
    and the delete are the renderings of the four conditions; in each
    command the attribute names defined are the [#] placeholders of its
    condition and the attribute values defined are its [:] placeholders,
    none for the insert, which is sent without values. *)
Theorem X10_placeholders_defined_and_used this dataBag observed clock lock g :
  let sk := sortKey (fo_config this) in
  let sk' := sortKey (data_config (lock_config lock)) in
  let new := acquireNewLock_params this dataBag clock in
  let over := acquireExistingLock_params this dataBag observed clock in
  let ren := refreshLock_params lock g clock in
  let del := release_params lock in
  (put_ConditionExpression new = render (notExistsCondition sk)
   /\ dom (put_ExpressionAttributeNames new) = namesUsed (notExistsCondition sk)
   /\ put_ExpressionAttributeValues new = None
   /\ valuesUsed (notExistsCondition sk) = ∅)
  /\ (put_ConditionExpression over = render (overwriteCondition sk)
      /\ dom (put_ExpressionAttributeNames over) = namesUsed (overwriteCondition sk)
      /\ exists values, put_ExpressionAttributeValues over = Some values
                        /\ dom values = valuesUsed (overwriteCondition sk))
  /\ (put_ConditionExpression ren = render (ownedCondition sk')
      /\ dom (put_ExpressionAttributeNames ren) = namesUsed (ownedCondition sk')
      /\ exists values, put_ExpressionAttributeValues ren = Some values
                        /\ dom values = valuesUsed (ownedCondition sk'))
  /\ (del_ConditionExpression del = render (ownedCondition sk')
      /\ dom (del_ExpressionAttributeNames del) = namesUsed (ownedCondition sk')
      /\ dom (del_ExpressionAttributeValues del) = valuesUsed (ownedCondition sk')).
Proof.
  intros sk sk' new over ren del.
  subst new over ren del.
  unfold acquireNewLock_params, acquireExistingLock_params, refreshLock_params,
    release_params.
  cbn [put_ConditionExpression put_ExpressionAttributeNames
       put_ExpressionAttributeValues del_ConditionExpression
       del_ExpressionAttributeNames del_ExpressionAttributeValues].
  fold sk sk'.
  rewrite !dom_names, !buildAttributeNotExistsExpression_render,
    !buildAttributeExistsExpression_render.
  unfold ownedCondition, overwriteCondition, existsCondition, notExistsCondition.
  repeat split;
    try (eexists; split; [reflexivity|]);
    try rewrite dom_singleton_L;
    try (destruct (truthyString sk); cbn; set_unfold; tauto);
    try (destruct (truthyString sk'); cbn; set_unfold; tauto).
Qed.

(** ** Holding on to the record *)

Lemma holds_owned pk sko token stored :
  holds (buildExpressionAttributeNames pk sko)
        {[ ":recordVersionNumber" := token ]} stored (ownedCondition sko) = true
  <-> exists item,
        stored = Some item
        /\ is_Some (item !! pk)
        /\ (forall sk, truthyString sko = Some sk -> is_Some (item !! sk))
        /\ item !! "recordVersionNumber" = Some token.
Proof.
  unfold ownedCondition, existsCondition.
  pose proof (names_partitionKey pk sko) as Hp.
  pose proof (names_sortKey pk sko) as Hs.
  destruct (truthyString sko) as [sk|] eqn:Hsk; cbn [holds];
    rewrite ?Hp, ?Hs, lookup_singleton_eq; destruct stored as [item|];
    rewrite ?andb_true_iff, ?bool_decide_eq_true.
  - split.
    + intros [[H1 H2] H3]. exists item. repeat split; auto. now intros ? [= <-].
    + intros (i & [= <-] & H1 & H2 & H3). auto.
  - split; [intros [[? ?] ?]; discriminate | intros (i & ? & _); discriminate].
  - split.
    + intros [H1 H3]. exists item. repeat split; auto. discriminate.
    + intros (i & [= <-] & H1 & _ & H3). auto.
  - split; [intros [? ?]; discriminate | intros (i & ? & _); discriminate].
Qed.

Lemma Lock_new_fields data timer :
  lock_config (fst (Lock_new data timer)) = data
  /\ recordVersionNumber (fst (Lock_new data timer)) = data_recordVersionNumber data
  /\ released (fst (Lock_new data timer)) = false
  /\ refreshing (fst (Lock_new data timer)) = false
  /\ refreshCallback (fst (Lock_new data timer)) = None.
Proof.
  unfold Lock_new. now destruct (truthyNumber _).
Qed.




(** X12: once the record carries another token, every command that still
    carries the old one is refused.  Of a record rewritten by a renewal
    with token [g], or by an acquisition with token [g], and for a command
    whose token is not [g]: the condition of a waiter's overwrite fails, the
    condition of a renewal or delete fails, and the condition of a fresh
    insert fails whatever its values. *)
Theorem X12_stale_token_refused config this dataBag lock g clock observed stored :
  FailOpen_new config = inr this ->
  lock_config lock = newLockData this dataBag ->
  stored = put_Item (refreshLock_params lock g clock)
  \/ stored = acquireItem this (setToken dataBag g) clock ->
  observed <> JString g ->
  let names := buildExpressionAttributeNames (partitionKey config) (sortKey config) in
  let stale : gmap string JsValue := {[ ":recordVersionNumber" := observed ]} in
  holds names stale (Some stored) (overwriteCondition (sortKey config)) = false
  /\ holds names stale (Some stored) (ownedCondition (sortKey config)) = false
  /\ forall values,
       holds names values (Some stored) (notExistsCondition (sortKey config)) = false.
Proof.
  intros Hnew Hlock Hstored Hobs names stale.
  pose proof (FailOpen_new_inr _ _ Hnew) as (Hcfg & _).
  assert (Hitem : is_Some (stored !! partitionKey config)
                  /\ stored !! "recordVersionNumber" = Some (JString g)).
  { destruct Hstored as [-> | ->].
    - destruct (refreshItem_lookups _ _ dataBag lock g clock Hnew Hlock)
        as (Htok & _ & _ & Hpk & _). split; assumption.
    - split.
      + rewrite <- Hcfg. apply acquireItem_has_partitionKey.
      + apply (acquireItem_identity _ _ (setToken dataBag g) clock Hnew). }
  destruct Hitem as [Hpk Htok].
  assert (Hkey : forall item, Some stored = Some item ->
                   is_Some (item !! partitionKey config)).
  { now intros item [= <-]. }
  split; [|split].
  - apply not_true_is_false. intros H. apply holds_overwrite in H; [|exact Hkey].
    destruct H as [H | (item & [= <-] & H)]; [discriminate|]. congruence.
  - apply not_true_is_false. intros H. apply holds_owned in H.
    destruct H as (item & [= <-] & _ & _ & H). congruence.
  - intros values. apply not_true_is_false. intros H.
    apply holds_notExists in H; [discriminate | exact Hkey].
Qed.

Lemma X12_stale_token_refused_witness :
  FailOpen_new (fo_config sample_trusting_client) = inr sample_trusting_client
  /\ holds (buildExpressionAttributeNames "id" None)
       {[ ":recordVersionNumber" := JString "B" ]}
       (Some (put_Item
                (refreshLock_params
                   (fst (Lock_new (newLockData sample_trusting_client sample_bag) 0%nat))
                   "C" sample_clock)))
       (ownedCondition None) = false.
Proof.
  split; [reflexivity|].
  destruct (X12_stale_token_refused (fo_config sample_trusting_client)
              sample_trusting_client sample_bag
              (fst (Lock_new (newLockData sample_trusting_client sample_bag) 0%nat))
              "C" sample_clock (JString "B")
              (put_Item
                 (refreshLock_params
                    (fst (Lock_new (newLockData sample_trusting_client sample_bag) 0%nat))
                    "C" sample_clock))
              eq_refl eq_refl (or_introl eq_refl) ltac:(discriminate))
    as (_ & Howned & _).
  exact Howned.
Defined.

(** X13: a renewal rewrites the record the acquisition wrote, with only the
    token and the times changed.  For a lock an acquisition handed over,
    with a truthy sort-key value exactly when a sort key is configured, the
    item of a renewal with token [g] at a given time is the item the
    acquisition would have written with token [g] at that time: same key
    attributes, same owner name, same lease duration in milliseconds; and it
    goes to the same table under the same attribute names. *)
Theorem X13_renewal_rewrites_record this dataBag lock g clock :
  lock_config lock = newLockData this dataBag ->
  (truthy (bag_sortID dataBag) = true
   <-> is_Some (truthyString (sortKey (fo_config this)))) ->
  put_Item (refreshLock_params lock g clock)
  = acquireItem this (setToken dataBag g) clock
  /\ put_TableName (refreshLock_params lock g clock)
     = put_TableName (acquireNewLock_params this dataBag clock)
  /\ put_ExpressionAttributeNames (refreshLock_params lock g clock)
     = put_ExpressionAttributeNames (acquireNewLock_params this dataBag clock).
Proof.
  intros Hlock Hid.
  unfold refreshLock_params, acquireNewLock_params, acquireItem, withSortID.
  cbn [put_Item put_TableName put_ExpressionAttributeNames].
  rewrite Hlock. unfold newLockData, setToken.
  cbn [data_config data_partitionID data_sortID lockTable partitionKey sortKey
       leaseDuration leaseUnit ownerName trustLocalTime
       bag_partitionID bag_recordVersionNumber bag_sortID bag_ownerName].
  split; [|split; reflexivity].
  assert (Hbase : forall pk pid ld u o,
             baseItem pk pid (orDefault (Some ld) 10000) u o g clock
             = baseItem pk pid ld u o g clock).
  { intros. unfold baseItem. now rewrite orDefault_idem by discriminate. }
  rewrite Hbase.
  destruct (truthyString (sortKey (fo_config this))) as [sk|] eqn:Hsk.
  - rewrite (proj2 Hid) by eauto.
    apply truthyString_Some in Hsk as [-> _]. reflexivity.
  - destruct (truthy (bag_sortID dataBag)); [|reflexivity].
    destruct (proj1 Hid eq_refl) as [? E]. discriminate E.
Qed.

Lemma X13_renewal_rewrites_record_witness :
  put_Item
    (refreshLock_params
       (fst (Lock_new (newLockData sample_trusting_client sample_bag) 0%nat))
       "C" sample_clock)
  = acquireItem sample_trusting_client (setToken sample_bag "C") sample_clock.
Proof.
  refine (proj1 (X13_renewal_rewrites_record sample_trusting_client sample_bag
                   (fst (Lock_new (newLockData sample_trusting_client sample_bag) 0%nat))
                   "C" sample_clock eq_refl _)).
  split; [discriminate | intros [? E]; discriminate E].
Defined.

(** ** The lock over its whole life *)

Lemma release_params_ext l l' :
  lock_config l = lock_config l' ->
  recordVersionNumber l = recordVersionNumber l' ->
  release_params l = release_params l'.
Proof.
  unfold release_params. now intros -> ->.
Qed.

Lemma refreshLock_params_ext l l' g clock :
  lock_config l = lock_config l' ->
  recordVersionNumber l = recordVersionNumber l' ->
  refreshLock_params l g clock = refreshLock_params l' g clock.
Proof.
  unfold refreshLock_params. now intros -> ->.
Qed.

Lemma refreshLock_params_token l g clock :
  put_ExpressionAttributeValues (refreshLock_params l g clock)
  = Some {[ ":recordVersionNumber" := JString (recordVersionNumber l) ]}.
Proof.
  reflexivity.
Qed.

Local Opaque release_params refreshLock_params.

Lemma initialWorld_lock data :
  w_lock (fst (initialWorld data)) = fst (Lock_new data 0%nat).
Proof. unfold initialWorld, settle. cbn [fst]. apply fold_applyEffect_lock. Qed.

Lemma lockStep_config w ev w' effs :
  lockStep w ev = Some (w', effs) ->
  lock_config (w_lock w') = lock_config (w_lock w).
Proof.
  intros Hstep. apply lockStep_effects in Hstep.
  destruct ev as [cb thr | t g c | g err thr | cb err].
  - rewrite release_spec in Hstep.
    destruct (released (w_lock w)), (refreshing (w_lock w));
      injection Hstep as -> _; reflexivity.
  - destruct Hstep as [_ Hstep]. injection Hstep as -> _. reflexivity.
  - destruct Hstep as [_ Hstep]. unfold refreshLock_done in Hstep.
    destruct (w_lock w) as [cfg rvn rel refr [rcb|] hb];
      cbn [setRefreshing refreshCallback lock_config recordVersionNumber released
           refreshing heartbeatTimeout] in Hstep;
      rewrite ?release_spec in Hstep; cbn in Hstep;
      destruct rel, err; cbn in Hstep; injection Hstep as -> _; reflexivity.
  - destruct Hstep as [_ Hstep]. injection Hstep as -> _. reflexivity.
Qed.

Lemma reachable_config config w : reachable config w -> lock_config (w_lock w) = config.
Proof.
  induction 1 as [|w ev w' effs _ IH Hstep].
  - rewrite initialWorld_lock. apply Lock_new_fields.
  - now rewrite (lockStep_config _ _ _ _ Hstep).
Qed.

Lemma reachable_budget config w : reachable config w -> (callbackBudget w <= 1)%nat.
Proof.
  induction 1 as [|w ev w' effs _ IH Hstep].
  - unfold initialWorld, Lock_new. now destruct (truthyNumber _).
  - destruct (lockStep_budget _ _ _ _ Hstep) as [_ H]. lia.
Qed.

Lemma initialWorld_idle data :
  truthyNumber (heartbeatPeriodMs (data_config data)) = false ->
  idle (fst (initialWorld data)) /\ snd (initialWorld data) = [].
Proof.
  intros Hhb. unfold initialWorld, Lock_new. rewrite Hhb. now repeat split.
Qed.

Lemma reachable_no_heartbeat config w :
  reachable config w ->
  truthyNumber (heartbeatPeriodMs (data_config config)) = false -> idle w.
Proof.
  intros Hreach Hhb. induction Hreach as [|w ev w' effs _ IH Hstep].
  - now apply initialWorld_idle.
  - exact (proj1 (idle_step _ _ _ _ IH Hstep)).
Qed.

(** What one turn does to an idle lock: the token stays, and a delete it
    sends is the delete of the lock as it was. *)
Lemma idle_step_token w ev w' effs :
  idle w -> lockStep w ev = Some (w', effs) ->
  recordVersionNumber (w_lock w') = recordVersionNumber (w_lock w)
  /\ forall params callback thrown,
       LSendDelete params callback thrown ∈ effs -> params = release_params (w_lock w).
Proof.
  intros (Ht & Hp & Hr) Hstep.
  pose proof (lockStep_config _ _ _ _ Hstep) as Hcfg.
  apply lockStep_effects in Hstep.
  destruct ev as [cb thr | t g c | g err thr | cb err].
  - rewrite release_spec, Hr in Hstep.
    destruct (released (w_lock w)).
    + injection Hstep as -> ->. split; [reflexivity|].
      intros ? ? ? H. apply elem_of_nil in H. contradiction.
    + injection Hstep as Hl ->. split; [now rewrite Hl|].
      intros params callback thrown H.
      apply elem_of_app in H as [H|H].
      * destruct (heartbeatTimeout (w_lock w));
          [apply list_elem_of_singleton in H; discriminate H
          |apply elem_of_nil in H; contradiction].
      * apply elem_of_cons in H as [H|H].
        -- injection H as -> _ _. now apply release_params_ext.
        -- destruct thr; [|apply elem_of_nil in H; contradiction].
           apply elem_of_cons in H as [H|H]; [discriminate H|].
           apply list_elem_of_singleton in H. discriminate H.
  - destruct Hstep as [Hin _]. rewrite Ht in Hin. apply elem_of_nil in Hin. contradiction.
  - destruct Hstep as [Hin _]. rewrite Hp in Hin. apply elem_of_nil in Hin. contradiction.
  - destruct Hstep as [_ Hstep]. injection Hstep as -> ->. split; [reflexivity|].
    intros params callback thrown H. unfold release_done in H.
    destruct err as [e|]; [destruct (isConditionalCheckFailed e)|];
      repeat (apply elem_of_cons in H as [H|H]; [discriminate H|]);
      apply elem_of_nil in H; contradiction.
Qed.

Lemma idle_run_token evs : forall w w' effs,
  idle w -> lockRun w evs = Some (w', effs) ->
  recordVersionNumber (w_lock w') = recordVersionNumber (w_lock w)
  /\ lock_config (w_lock w') = lock_config (w_lock w)
  /\ forall params callback thrown,
       LSendDelete params callback thrown ∈ effs -> params = release_params (w_lock w).
Proof.
  induction evs as [|ev evs IH]; intros w w' effs Hidle; simpl.
  - intros [= <- <-]. split; [reflexivity|]. split; [reflexivity|].
    intros ? ? ? H. apply elem_of_nil in H. contradiction.
  - destruct (lockStep w ev) as [[w1 effs1]|] eqn:Hstep; [|discriminate].
    destruct (lockRun w1 evs) as [[w2 effs2]|] eqn:Hrun; [|discriminate].
    intros [= <- <-].
    destruct (idle_step _ _ _ _ Hidle Hstep) as [Hidle1 _].
    destruct (idle_step_token _ _ _ _ Hidle Hstep) as [Htok1 Hdel1].
    pose proof (lockStep_config _ _ _ _ Hstep) as Hcfg1.
    destruct (IH _ _ _ Hidle1 Hrun) as (Htok2 & Hcfg2 & Hdel2).
    split; [congruence|]. split; [congruence|].
    intros params callback thrown H. apply elem_of_app in H as [H|H].
    + eauto.
    + rewrite (Hdel2 _ _ _ H). now apply release_params_ext.
Qed.

(** X14: a lock constructed without a heartbeat period, or with the period
    0, never renews.  Its constructor arms no timer; over every sequence of
    events no write is sent and no timer is armed, the lock keeps the token
    of its acquisition, and every delete it sends is the delete of the lock
    as constructed, conditioned on that token. *)
Theorem X14_no_heartbeat_no_renewal data evs w effs :
  truthyNumber (heartbeatPeriodMs (data_config data)) = false ->
  lockRun (fst (initialWorld data)) evs = Some (w, effs) ->
  snd (initialWorld data) = []
  /\ count renews effs = 0%nat
  /\ idle w
  /\ recordVersionNumber (w_lock w) = data_recordVersionNumber data
  /\ forall params callback thrown,
       LSendDelete params callback thrown ∈ effs ->
       params = release_params (fst (Lock_new data 0%nat))
       /\ del_ExpressionAttributeValues params
          = {[ ":recordVersionNumber" := JString (data_recordVersionNumber data) ]}.
Proof.
  intros Hhb Hrun. destruct (initialWorld_idle data Hhb) as [Hidle Hnone].
  destruct (idle_run _ _ _ _ Hidle Hrun) as [Hidle' Hren].
  destruct (idle_run_token _ _ _ _ Hidle Hrun) as (Htok & _ & Hdel).
  rewrite initialWorld_lock in Htok, Hdel.
  destruct (Lock_new_fields data 0%nat) as (_ & Hrvn & _).
  split; [exact Hnone|]. split; [exact Hren|]. split; [exact Hidle'|].
  split; [congruence|].
  intros params callback thrown H. rewrite (Hdel _ _ _ H).
  split; [reflexivity|]. now rewrite release_params_token, Hrvn.
Qed.

Lemma X14_no_heartbeat_no_renewal_witness :
  exists w effs,
    lockRun held_world [CallRelease 7%nat None; DeleteCompletes 7%nat None]
    = Some (w, effs)
    /\ count renews effs = 0%nat
    /\ recordVersionNumber (w_lock w) = "A".
Proof.
  assert (Hrun : exists w effs,
             lockRun (fst (initialWorld (sample_lock_data None)))
               [CallRelease 7%nat None; DeleteCompletes 7%nat None] = Some (w, effs)).
  { eexists _, _. vm_compute. reflexivity. }
  destruct Hrun as (w & effs & Hrun). exists w, effs.
  destruct (X14_no_heartbeat_no_renewal (sample_lock_data None)
              [CallRelease 7%nat None; DeleteCompletes 7%nat None] w effs
              eq_refl Hrun) as (_ & Hren & _ & Htok & _).
  split; [exact Hrun|]. split; [exact Hren | exact Htok].
Defined.

(** X15: one thing at a time.  In every state a lock can reach, the
    configuration is the one it was constructed with, and at most one of a
    heartbeat timer, a renewal write and a delete is armed or outstanding.
    A write is outstanding exactly while the lock is marked refreshing, a
    delete only once it is released; a released lock has nothing armed,
    nothing being written and no release deferred; an armed timer is the one
    the lock remembers, and there is one only under a heartbeat period that
    is set and not 0. *)
Theorem X15_one_thing_at_a_time config w :
  reachable config w ->
  lock_config (w_lock w) = config
  /\ (length (w_timers w) + length (w_puts w) + length (w_deletes w) <= 1)%nat
  /\ (w_puts w <> [] <-> refreshing (w_lock w) = true)
  /\ (w_deletes w <> [] -> released (w_lock w) = true)
  /\ (released (w_lock w) = true ->
      w_timers w = [] /\ w_puts w = [] /\ refreshing (w_lock w) = false
      /\ refreshCallback (w_lock w) = None)
  /\ (forall t, t ∈ w_timers w ->
        heartbeatTimeout (w_lock w) = Some t
        /\ truthyNumber (heartbeatPeriodMs (data_config config)) = true).
Proof.
  intros Hreach.
  pose proof (reachable_config _ _ Hreach) as Hcfg.
  pose proof (reachable_budget _ _ Hreach) as Hbudget.
  pose proof (reachable_no_heartbeat _ _ Hreach) as Hnohb.
  destruct (reachable_consistent _ _ Hreach) as (I1 & I2 & I3 & I4 & I5).
  unfold callbackBudget, deleteBudget, idle in *.
  split; [exact Hcfg|].
  destruct (refreshing (w_lock w)) eqn:Hrefr, (released (w_lock w)) eqn:Hrel;
    use_facts; try discriminate.
  - (* a renewal is outstanding *)
    match goal with H : w_puts w = _ |- _ => rename H into Hputs end.
    match goal with H : w_timers w = _ |- _ => rename H into Htimers end.
    match goal with H : w_deletes w = _ |- _ => rename H into Hdels end.
    rewrite Hputs, Htimers, Hdels. cbn.
    split; [lia|]. split; [split; [reflexivity | discriminate]|].
    split; [congruence|]. split; [discriminate|].
    intros t Ht. apply elem_of_nil in Ht. contradiction.
  - (* released *)
    match goal with H : w_puts w = _ |- _ => rename H into Hputs end.
    match goal with H : w_timers w = _ |- _ => rename H into Htimers end.
    rewrite Hputs, Htimers. cbn.
    split; [lia|]. split; [split; [congruence | discriminate]|].
    split; [reflexivity|]. split; [auto|].
    intros t Ht. apply elem_of_nil in Ht. contradiction.
  - (* held, nothing being written *)
    match goal with H : w_puts w = _ |- _ => rename H into Hputs end.
    match goal with H : w_deletes w = _ |- _ => rename H into Hdels end.
    rewrite Hputs, Hdels. cbn.
    assert (Hlen : (length (w_timers w) <= 1)%nat).
    { destruct (w_timers w) as [|t ts] eqn:E; [cbn; lia|].
      destruct (I5 t) as [Hone _]; [apply elem_of_cons; now left|].
      injection Hone as ->. cbn. lia. }
    split; [lia|]. split; [split; [congruence | discriminate]|].
    split; [congruence|]. split; [discriminate|].
    intros t Ht. destruct (I5 t Ht) as [Hone Hhb]. split; [exact Hhb|].
    destruct (truthyNumber _) eqn:Hp; [reflexivity|].
    destruct (Hnohb eq_refl) as (Hno & _). rewrite Hno in Ht.
    apply elem_of_nil in Ht. contradiction.
Qed.

Lemma X15_one_thing_at_a_time_witness :
  w_puts renewing_world = ["B"] /\ w_timers renewing_world = []
  /\ refreshing (w_lock renewing_world) = true
  /\ lock_config (w_lock renewing_world) = sample_lock_data (Some 3000).
Proof.
  destruct (X15_one_thing_at_a_time _ _ renewing_world_reachable)
    as (Hcfg & _ & Hputs & _).
  split; [reflexivity|]. split; [reflexivity|].
  split; [apply Hputs; discriminate | exact Hcfg].
Defined.

(** X16: one beat of the heart.  In every reachable state with the timer
    armed, its firing sends exactly one write, the renewal conditioned on
    the lock's current token, and leaves no timer armed; the lock keeps its
    token while the write is outstanding.  When the write completes without
    error the lock adopts the new token and arms exactly one timer again,
    with the configured heartbeat period, so that the next renewal is
    conditioned on the token just written. *)
Theorem X16_heartbeat_cycle config w t g clock :
  reachable config w ->
  t ∈ w_timers w ->
  exists w1,
    lockStep w (TimerFires t g clock)
    = Some (w1, [LSendPut (refreshLock_params (w_lock w) g clock) g])
    /\ put_ExpressionAttributeValues (refreshLock_params (w_lock w) g clock)
       = Some {[ ":recordVersionNumber" := JString (recordVersionNumber (w_lock w)) ]}
    /\ w_timers w1 = [] /\ w_puts w1 = [g] /\ w_deletes w1 = []
    /\ recordVersionNumber (w_lock w1) = recordVersionNumber (w_lock w)
    /\ forall thrown, exists w2,
         lockStep w1 (PutCompletes g None thrown)
         = Some (w2, [LSetTimeout (w_nextTimer w)
                        (heartbeatPeriodMs (data_config config))])
         /\ reachable config w2
         /\ recordVersionNumber (w_lock w2) = g
         /\ w_timers w2 = [w_nextTimer w] /\ w_puts w2 = [] /\ w_deletes w2 = []
         /\ released (w_lock w2) = false /\ refreshing (w_lock w2) = false
         /\ forall g' clock',
              put_ExpressionAttributeValues (refreshLock_params (w_lock w2) g' clock')
              = Some {[ ":recordVersionNumber" := JString g ]}.
Proof.
  intros Hreach Ht.
  pose proof (reachable_config _ _ Hreach) as Hcfg.
  destruct (reachable_consistent _ _ Hreach) as (I1 & I2 & I3 & I4 & I5).
  destruct (I5 t Ht) as [Htimers Hhb].
  assert (Hrel : released (w_lock w) = false).
  { destruct (released (w_lock w)); [|reflexivity].
    rewrite (I3 eq_refl) in Htimers. discriminate. }
  assert (Hrefr : refreshing (w_lock w) = false).
  { destruct (refreshing (w_lock w)); [|reflexivity].
    destruct (I1 eq_refl) as (_ & H & _). rewrite H in Htimers. discriminate. }
  destruct (I2 Hrefr) as [Hputs Hrcb]. specialize (I4 Hrel).
  assert (Hfire : exists w1,
             lockStep w (TimerFires t g clock)
             = Some (w1, [LSendPut (refreshLock_params (w_lock w) g clock) g])
             /\ w_lock w1 = setRefreshing (w_lock w) true
             /\ w_timers w1 = [] /\ w_puts w1 = [g] /\ w_deletes w1 = []
             /\ w_nextTimer w1 = w_nextTimer w).
  { unfold lockStep. rewrite bool_decide_eq_true_2 by exact Ht.
    unfold refreshLock, settle. cbn [fst snd fold_left applyEffect setLock
      w_lock w_timers w_puts w_deletes w_nextTimer].
    rewrite Htimers, Hputs, I4, removeFirst_same.
    rewrite (refreshLock_params_ext (setRefreshing (w_lock w) true) (w_lock w))
      by reflexivity.
    eexists. split; [reflexivity|]. now repeat split. }
  destruct Hfire as (w1 & Hstep1 & Hl1 & Ht1 & Hp1 & Hd1 & Hn1).
  exists w1. split; [exact Hstep1|]. split; [apply refreshLock_params_token|].
  split; [exact Ht1|]. split; [exact Hp1|]. split; [exact Hd1|].
  split; [now rewrite Hl1|].
  intros thrown.
  assert (Hdone : exists w2,
             lockStep w1 (PutCompletes g None thrown)
             = Some (w2, [LSetTimeout (w_nextTimer w)
                            (heartbeatPeriodMs (data_config config))])
             /\ w_lock w2
                = setHeartbeatTimeout
                    (setRecordVersionNumber
                       (setRefreshCallback (setRefreshing (w_lock w1) false) None) g)
                    (Some (w_nextTimer w))
             /\ w_timers w2 = [w_nextTimer w] /\ w_puts w2 = [] /\ w_deletes w2 = []).
  { unfold lockStep. rewrite Hp1.
    rewrite bool_decide_eq_true_2 by (apply list_elem_of_singleton; reflexivity).
    unfold refreshLock_done, settle. rewrite Hl1, Hn1.
    destruct (w_lock w) as [cfg rvn rel refr rcb hb].
    cbn in Hrel, Hrefr, Hrcb, Hcfg. subst rel refr rcb cfg.
    cbn. rewrite String.eqb_refl, Ht1, Hd1.
    eexists. split; [reflexivity|]. now repeat split. }
  destruct Hdone as (w2 & Hstep2 & Hl2 & Ht2 & Hp2 & Hd2).
  exists w2. split; [exact Hstep2|].
  split; [exact (reachable_step _ _ _ _ _ (reachable_step _ _ _ _ _ Hreach Hstep1) Hstep2)|].
  rewrite Hl2, Hl1. cbn. rewrite Hrel.
  repeat split; assumption.
Qed.

Lemma X16_heartbeat_cycle_witness :
  exists w1,
    lockStep beating_world (TimerFires 0%nat "B" sample_clock)
    = Some (w1, [LSendPut (refreshLock_params (w_lock beating_world) "B" sample_clock)
                   "B"])
    /\ w_puts w1 = ["B"].
Proof.
  destruct (X16_heartbeat_cycle (sample_lock_data (Some 3000)) beating_world 0%nat
              "B" sample_clock (reachable_init _)
              ltac:(apply list_elem_of_singleton; reflexivity))
    as (w1 & Hstep & _ & _ & Hputs & _).
  exists w1. split; [exact Hstep | exact Hputs].
Defined.

(** ** A deferred release that is requested again *)

Lemma removeFirst_elem x y l : x ∈ removeFirst y l -> x ∈ l.
Proof.
  induction l as [|z l IH]; simpl; [auto|].
  destruct (Nat.eqb y z).
  - intros H. apply elem_of_cons. now right.
  - intros H. apply elem_of_cons in H as [->|H]; apply elem_of_cons; auto.
Qed.

Lemma fold_applyEffect_deletes c effs : forall w,
  c ∈ w_deletes (fold_left applyEffect effs w) ->
  c ∈ w_deletes w \/ exists params, LSendDelete params c None ∈ effs.
Proof.
  induction effs as [|e effs IH]; intros w; simpl; [auto|].
  intros H. destruct (IH _ H) as [Hin | [params Hin]].
  - destruct e as [| p c' [x|] | | | | |]; cbn in Hin; try (now left).
    apply elem_of_app in Hin as [Hin|Hin]; [now left|].
    apply list_elem_of_singleton in Hin as ->.
    right. exists p. apply elem_of_cons. now left.
  - right. exists params. apply elem_of_cons. now right.
Qed.

Lemma settle_deletes w r w' effs c :
  settle w r = (w', effs) ->
  c ∈ w_deletes w' ->
  c ∈ w_deletes w \/ exists params, LSendDelete params c None ∈ effs.
Proof.
  unfold settle. intros [= <- <-] H.
  now apply fold_applyEffect_deletes in H.
Qed.

Lemma lockStep_deletes w ev w' effs c :
  lockStep w ev = Some (w', effs) ->
  c ∈ w_deletes w' ->
  c ∈ w_deletes w \/ exists params, LSendDelete params c None ∈ effs.
Proof.
  unfold lockStep.
  destruct ev as [cb thr | t g cl | g err thr | cb err];
    try (case_bool_decide as Hin; [|discriminate]);
    intros Hs%(inj Some) H;
    destruct (settle_deletes _ _ _ _ _ Hs H) as [H'|H']; auto.
  left. now apply removeFirst_elem in H'.
Qed.

Lemma release_quiet cb c thr l :
  c <> cb ->
  Forall (fun e => isCallbackOf cb e = false /\ isDeleteOf cb e = false)
         (snd (release c thr l))
  /\ (refreshCallback l <> Some cb ->
      refreshCallback (fst (release c thr l)) <> Some cb).
Proof.
  intros Hne. pose proof (proj2 (Nat.eqb_neq c cb) Hne) as Hb.
  rewrite release_spec.
  destruct (released l), (refreshing l), (heartbeatTimeout l), thr; cbn; rewrite ?Hb;
    (split; [repeat constructor; cbn; rewrite ?Hb; auto | congruence || auto]).
Qed.

Lemma refreshLock_done_quiet cb g err thr timer l :
  refreshCallback l <> Some cb ->
  Forall (fun e => isCallbackOf cb e = false /\ isDeleteOf cb e = false)
         (snd (refreshLock_done g err thr timer l))
  /\ refreshCallback (fst (refreshLock_done g err thr timer l)) <> Some cb.
Proof.
  intros Hrcb. unfold refreshLock_done.
  destruct l as [cfg rvn rel refr [c|] hb];
    cbn [setRefreshing refreshCallback lock_config recordVersionNumber released
         refreshing heartbeatTimeout] in *.
  - assert (Hne : c <> cb) by congruence.
    pose proof (proj2 (Nat.eqb_neq c cb) Hne) as Hb.
    rewrite release_spec. cbn.
    destruct rel, hb, thr, err; cbn; rewrite ?Hb;
      (split; [repeat constructor; cbn; rewrite ?Hb; auto | discriminate]).
  - destruct rel, err; cbn;
      (split; [repeat constructor; cbn; auto | discriminate]).
Qed.

Lemma forgotten_step cb w ev w' effs :
  forgotten cb w -> callsRelease cb ev = false ->
  lockStep w ev = Some (w', effs) ->
  forgotten cb w'
  /\ Forall (fun e => isCallbackOf cb e = false /\ isDeleteOf cb e = false) effs.
Proof.
  intros [Hrcb Hdel] Hev Hstep.
  assert (Hgoal : refreshCallback (w_lock w') <> Some cb
                  /\ Forall (fun e => isCallbackOf cb e = false
                                      /\ isDeleteOf cb e = false) effs).
  { pose proof (lockStep_effects _ _ _ _ Hstep) as Heff.
    destruct ev as [c thr | t g cl | g err thr | c err].
    - cbn in Hev. apply Nat.eqb_neq in Hev.
      destruct (release_quiet cb c thr (w_lock w) Hev) as [Hq Hr].
      rewrite <- Heff in Hq, Hr. auto.
    - destruct Heff as [_ Heff]. injection Heff as -> ->.
      split; [exact Hrcb|]. repeat constructor.
    - destruct Heff as [_ Heff].
      destruct (refreshLock_done_quiet cb g err thr (w_nextTimer w) (w_lock w) Hrcb)
        as [Hq Hr].
      rewrite <- Heff in Hq, Hr. auto.
    - destruct Heff as [Hin Heff]. injection Heff as -> ->.
      split; [exact Hrcb|].
      assert (Hne : c <> cb) by (intros ->; contradiction).
      pose proof (proj2 (Nat.eqb_neq c cb) Hne) as Hb.
      unfold release_done.
      destruct err as [e|]; [destruct (isConditionalCheckFailed e)|];
        repeat constructor; cbn; rewrite ?Hb; auto. }
  destruct Hgoal as [Hr Hq]. split; [|exact Hq]. split; [exact Hr|].
  intros Hin. destruct (lockStep_deletes _ _ _ _ _ Hstep Hin) as [H | [params H]].
  - contradiction.
  - rewrite Forall_forall in Hq. destruct (Hq _ H) as [_ Hd].
    cbn in Hd. rewrite Nat.eqb_refl in Hd. discriminate.
Qed.

Lemma forgotten_run cb evs : forall w w' effs,
  forgotten cb w ->
  forallb (fun ev => negb (callsRelease cb ev)) evs = true ->
  lockRun w evs = Some (w', effs) ->
  forgotten cb w'
  /\ Forall (fun e => isCallbackOf cb e = false /\ isDeleteOf cb e = false) effs.
Proof.
  induction evs as [|ev evs IH]; intros w w' effs Hf; simpl.
  - intros _ [= <- <-]. split; [exact Hf | constructor].
  - intros [Hev Hevs]%andb_true_iff.
    destruct (lockStep w ev) as [[w1 effs1]|] eqn:Hstep; [|discriminate].
    destruct (lockRun w1 evs) as [[w2 effs2]|] eqn:Hrun; [|discriminate].
    intros [= <- <-]. apply negb_true_iff in Hev.
    destruct (forgotten_step _ _ _ _ _ Hf Hev Hstep) as [Hf1 Hq1].
    destruct (IH _ _ _ Hf1 Hevs Hrun) as [Hf2 Hq2].
    split; [exact Hf2 | now apply Forall_app].
Qed.

(** X17: a release requested again while the first is deferred replaces it.
    When [release] is called with one callback and then with another while
    a renewal is outstanding, neither call sends anything and the lock
    remembers only the second callback: the completion of the renewal sends
    one delete, for the second callback, and unless [release] is called with
    the first callback again, no later event sends a delete for it or
    invokes it. *)
Theorem X17_deferred_release_replaced config w first second thrown1 thrown2 :
  reachable config w ->
  refreshing (w_lock w) = true ->
  first <> second ->
  exists w1 w2 g,
    lockStep w (CallRelease first thrown1) = Some (w1, [])
    /\ lockStep w1 (CallRelease second thrown2) = Some (w2, [])
    /\ refreshCallback (w_lock w2) = Some second
    /\ w_puts w2 = [g]
    /\ (forall error thrown, exists w3 effs params,
          lockStep w2 (PutCompletes g error thrown) = Some (w3, effs)
          /\ LSendDelete params second thrown ∈ effs
          /\ count isDelete effs = 1%nat)
    /\ forall evs w3 effs,
         forallb (fun ev => negb (callsRelease first ev)) evs = true ->
         lockRun w2 evs = Some (w3, effs) ->
         count (isCallbackOf first) effs = 0%nat
         /\ count (isDeleteOf first) effs = 0%nat.
Proof.
  intros Hreach Hrefr Hne.
  destruct (reachable_consistent _ _ Hreach) as (I1 & _ & _ & I4 & _).
  destruct (I1 Hrefr) as (Hrel & Htimers & g & Hputs). specialize (I4 Hrel).
  open_world w. subst rel refr timers puts deletes.
  eexists _, _, g. split.
  { unfold lockStep. rewrite release_spec. reflexivity. }
  split.
  { unfold lockStep. rewrite release_spec. reflexivity. }
  cbn. split; [reflexivity|]. split; [reflexivity|]. split.
  - intros error thrown. unfold lockStep.
    cbn [w_puts w_lock w_timers w_deletes w_nextTimer].
    rewrite bool_decide_eq_true_2 by (apply list_elem_of_singleton; reflexivity).
    unfold refreshLock_done. cbn. rewrite String.eqb_refl.
    destruct hb as [t|], error as [e|], thrown as [x|]; cbn;
      (eexists _, _, _; split; [reflexivity|];
       split; [apply elem_of_effects; simpl; eauto 6 | reflexivity]).
  - intros evs w3 effs Hevs Hrun.
    match type of Hrun with
    | lockRun ?w2 _ = _ => assert (Hf : forgotten first w2)
    end.
    { split; cbn.
      - intros [= E]. now apply Hne.
      - intros H. apply elem_of_nil in H. contradiction. }
    destruct (forgotten_run _ _ _ _ _ Hf Hevs Hrun) as [_ Hq].
    rewrite Forall_forall in Hq.
    split; apply count_zero_iff; intros e He; now destruct (Hq e He).
Qed.

Lemma X17_deferred_release_replaced_witness :
  exists w1 w2,
    lockStep renewing_world (CallRelease 7%nat None) = Some (w1, [])
    /\ lockStep w1 (CallRelease 8%nat None) = Some (w2, [])
    /\ refreshCallback (w_lock w2) = Some 8%nat.
Proof.
  destruct (X17_deferred_release_replaced (sample_lock_data (Some 3000))
              renewing_world 7%nat 8%nat None None renewing_world_reachable
              eq_refl ltac:(discriminate))
    as (w1 & w2 & g & H1 & H2 & Hcb & _).
  exists w1, w2. split; [exact H1|]. split; [exact H2 | exact Hcb].
Defined.

(** ** The outcomes of a release *)

(** X18: whatever the outcome of the delete, its completion invokes the
    release callback once, with no error, emits no error event and leaves
    the lock as it is.  A warning is logged first exactly when the error the
    delete completes with has the [code] ["ConditionalCheckFailedException"];
    any other error is dropped without a log.  An exception raised while the
    delete is being sent is caught: it is logged as a warning and the
    callback is invoked with no error. *)
Theorem X18_release_outcomes callback :
  release_done callback None = [LCallback callback None]
  /\ (forall e, isConditionalCheckFailed e = true ->
        release_done callback (Some e)
        = [LWarn "WARNING: Failed to release lock: ConditionalCheckFailedException.";
           LCallback callback None])
  /\ (forall e, isConditionalCheckFailed e = false ->
        release_done callback (Some e) = [LCallback callback None])
  /\ (forall w error w' effs,
        lockStep w (DeleteCompletes callback error) = Some (w', effs) ->
        w_lock w' = w_lock w
        /\ effs = release_done callback error
        /\ LCallback callback None ∈ effs
        /\ count isCallback effs = 1%nat
        /\ count isEmitError effs = 0%nat)
  /\ (forall this e,
        released this = false -> refreshing this = false ->
        exists this' cleared params,
          release callback (Some e) this
          = (this',
             (cleared
              ++ [LSendDelete params callback (Some e);
                  LWarn ("WARNING: Failed to release lock: " +:+ errorToString e);
                  LCallback callback None])%list)
          /\ released this' = true
          /\ count isCallback cleared = 0%nat
          /\ count isEmitError cleared = 0%nat).
Proof.
  split; [reflexivity|].
  split; [intros e He; unfold release_done; now rewrite He|].
  split; [intros e He; unfold release_done; now rewrite He|].
  split.
  - intros w error w' effs Hstep.
    apply lockStep_effects in Hstep as [_ [= -> ->]].
    split; [reflexivity|]. split; [reflexivity|].
    unfold release_done.
    destruct error as [e|]; [destruct (isConditionalCheckFailed e)|];
      (split; [apply elem_of_effects; simpl; auto|]); split; reflexivity.
  - intros this e Hrel Hrefr. rewrite release_spec, Hrel, Hrefr.
    eexists _, _, _. split; [reflexivity|].
    split; [reflexivity|]. destruct (heartbeatTimeout this); split; reflexivity.
Qed.
